(** * cmon51-debugadapter: the session protocol engine

    A shallow embedding of [src/parselst.ts] ([parseLst]), of the [Runtime]
    class that drives CMON51 through a pseudo-terminal and of the
    termination path of [Cmon51DebugSession], with the properties the
    design document states about them.

    Conventions.
    - A JavaScript string is the [string] of its UTF-16 code units, one
      character each: the texts of the device, of the listing and of the
      paths are taken to hold code units below 256 only, and a text with a
      code unit above 255 is outside the model. A JavaScript number is an
      integer of [Z]: the sums are exact, as those of the source are while
      the numbers stay within 2^53; the rounding of doubles beyond that is
      left out. [NaN] and [undefined] are [None] of an [option].
    - A regular-expression literal is a term of [regex], interpreted by a
      backtracking matcher with JavaScript's priorities (leftmost start,
      greedy quantifiers, alternatives tried left to right).
    - The promise a matcher resolves is identified by a natural number; the
      [Runtime] state records the settled promises in the order in which
      [resolve] was called. *)

From Stdlib Require Import String Ascii List ZArith Bool Arith Lia.
From Stdlib Require Import HexadecimalString.
From Equations Require Import Equations.
Import ListNotations.

Local Open Scope string_scope.
Local Open Scope list_scope.

(** ** Regular expressions *)

Module RegExp.

(** The fragment of the JavaScript pattern syntax the sources use. *)
Inductive regex : Type :=
| Eps : regex                                  (* empty pattern *)
| Char (cls : ascii -> bool) : regex           (* one character of a class *)
| Bol : regex                                  (* ^ without the m flag *)
| Eol : regex                                  (* $ without the m flag *)
| Seq (r1 r2 : regex) : regex
| Alt (r1 r2 : regex) : regex                  (* r1|r2 *)
| Star (r : regex) : regex                     (* r*, greedy *)
| Named (name : string) (r : regex) : regex.   (* (?<name>r) *)

Definition Plus (r : regex) : regex := Seq r (Star r).
Definition Opt (r : regex) : regex := Alt r Eps.

Fixpoint Lit (s : string) : regex :=
  match s with
  | EmptyString => Eps
  | String c s' => Seq (Char (Ascii.eqb c)) (Lit s')
  end.

(** Character classes. *)
Definition in_range (lo hi c : ascii) : bool :=
  (nat_of_ascii lo <=? nat_of_ascii c)%nat && (nat_of_ascii c <=? nat_of_ascii hi)%nat.
Definition digit (c : ascii) : bool := in_range "0" "9" c.
Definition upper_hex (c : ascii) : bool := in_range "0" "9" c || in_range "A" "F" c.
Definition CR : ascii := ascii_of_nat 13.
Definition LF : ascii := ascii_of_nat 10.
(** [.] excludes the line terminators. *)
Definition dot (c : ascii) : bool := negb (Ascii.eqb c CR || Ascii.eqb c LF).

(** Captures, most recent first. *)
Definition captures := list (string * string).

Fixpoint lookup (name : string) (cs : captures) : option string :=
  match cs with
  | [] => None
  | (n, v) :: cs' => if String.eqb n name then Some v else lookup name cs'
  end.

(** A continuation receives the position reached, the rest of the input
    and the captures so far. *)
Definition cont := nat -> string -> captures -> option (nat * captures).

(** The greedy loop of [r*]: one more iteration of the body when it
    succeeds and consumes input, the continuation otherwise. The input
    left bounds the number of iterations. *)
Fixpoint iter (body : nat -> string -> captures -> cont -> option (nat * captures))
    (k : cont) (fuel : nat) (pos : nat) (s : string) (cs : captures)
  : option (nat * captures) :=
  match fuel with
  | O => k pos s cs
  | S fuel' =>
      match body pos s cs
              (fun p' s' cs' =>
                 if (pos <? p')%nat then iter body k fuel' p' s' cs' else None) with
      | Some res => Some res
      | None => k pos s cs
      end
  end.

Fixpoint exec (r : regex) (pos : nat) (s : string) (cs : captures) (k : cont)
  : option (nat * captures) :=
  match r with
  | Eps => k pos s cs
  | Char cls =>
      match s with
      | String c s' => if cls c then k (S pos) s' cs else None
      | EmptyString => None
      end
  | Bol => if (pos =? 0)%nat then k pos s cs else None
  | Eol => match s with EmptyString => k pos s cs | String _ _ => None end
  | Seq r1 r2 => exec r1 pos s cs (fun p' s' cs' => exec r2 p' s' cs' k)
  | Alt r1 r2 =>
      match exec r1 pos s cs k with
      | Some res => Some res
      | None => exec r2 pos s cs k
      end
  | Star r1 => iter (exec r1) k (String.length s) pos s cs
  | Named name r1 =>
      exec r1 pos s cs
        (fun p' s' cs' => k p' s' ((name, substring 0 (p' - pos) s) :: cs'))
  end.

Definition accept : cont := fun p _ cs => Some (p, cs).

(** Leftmost start position at which the pattern matches. *)
Fixpoint search (r : regex) (pos : nat) (s : string) : option (nat * nat * captures) :=
  match exec r pos s [] accept with
  | Some (e, cs) => Some (pos, e, cs)
  | None =>
      match s with
      | String _ s' => search r (S pos) s'
      | EmptyString => None
      end
  end.

(** The array [String.prototype.match] returns for a pattern without the
    g flag: element 0, [index], [input] and the named groups ([None] is
    the [undefined] of a group that did not take part). *)
Record RegExpMatchArray : Type := {
  matched : string;
  index : nat;
  input : string;
  groups : captures
}.

Definition group (m : RegExpMatchArray) (name : string) : option string :=
  lookup name (groups m).

Definition js_match (inp : string) (r : regex) : option RegExpMatchArray :=
  match search r 0 inp with
  | Some (b, e, cs) =>
      Some {| matched := substring b (e - b) inp; index := b; input := inp; groups := cs |}
  | None => None
  end.

(** The names of the groups of a pattern. *)
Fixpoint names (r : regex) : list string :=
  match r with
  | Seq r1 r2 | Alt r1 r2 => names r1 ++ names r2
  | Star r1 => names r1
  | Named name r1 => name :: names r1
  | _ => []
  end.

Fixpoint all_chars (cls : ascii -> bool) (s : string) : bool :=
  match s with
  | EmptyString => true
  | String c s' => cls c && all_chars cls s'
  end.

End RegExp.
Import RegExp.

(** ** JavaScript helpers *)

(** A number that may be [NaN]. *)
Definition number := option Z.

Definition digit_val (c : ascii) : option Z :=
  let n := Z.of_nat (nat_of_ascii c) in
  if in_range "0" "9" c then Some (n - 48)%Z
  else if in_range "A" "F" c then Some (n - 55)%Z
  else if in_range "a" "f" c then Some (n - 87)%Z
  else None.

(** [parse_digits radix acc s] reads the longest prefix of [s] made of
    digits of the radix; the boolean tells whether a digit was read. *)
Fixpoint parse_digits (radix : Z) (seen : bool) (acc : Z) (s : string) : Z * bool :=
  match s with
  | EmptyString => (acc, seen)
  | String c s' =>
      match digit_val c with
      | Some d => if (d <? radix)%Z then parse_digits radix true (acc * radix + d)%Z s'
                  else (acc, seen)
      | None => (acc, seen)
      end
  end.

(** [parseInt(s, radix)] on a text without sign, leading blanks or [0x]
    prefix, which is all the sources pass: the text of a [\d*] or
    [[0-9A-F]+] group, or an entry of the line map. *)
Definition parseInt (s : string) (radix : Z) : number :=
  match parse_digits radix false 0%Z s with
  | (v, true) => Some v
  | (_, false) => None
  end.

(** [a !== b] on numbers: [NaN] differs from everything. *)
Definition num_neq (a b : number) : bool :=
  match a, b with
  | Some x, Some y => negb (x =? y)%Z
  | _, _ => true
  end.

(** [a <= b]: false as soon as one side is [NaN]. *)
Definition num_le (a b : number) : bool :=
  match a, b with Some x, Some y => (x <=? y)%Z | _, _ => false end.

(** [Number.prototype.toString(16)]. *)
Definition toString16 (n : number) : string :=
  match n with
  | None => "NaN"
  | Some z =>
      let digits := NilZero.string_of_uint (N.to_hex_uint (Z.abs_N z)) in
      if (z <? 0)%Z then "-" ++ digits else digits
  end.

(** [s.split('\r\n')]. *)
Definition push_front (c : ascii) (l : list string) : list string :=
  match l with
  | h :: t => String c h :: t
  | [] => [String c ""]
  end.

Fixpoint split_crlf (s : string) : list string :=
  match s with
  | EmptyString => [""]
  | String c s' =>
      match s' with
      | String c2 s'' =>
          if Ascii.eqb c CR && Ascii.eqb c2 LF then "" :: split_crlf s''
          else push_front c (split_crlf s')
      | EmptyString => push_front c (split_crlf s')
      end
  end.

(** [a.lastIndexOf(x)] for a string [x]; -1 when absent. *)
Fixpoint lastIndexOf_from (i : Z) (l : list string) (x : string) (found : Z) : Z :=
  match l with
  | [] => found
  | y :: l' => lastIndexOf_from (i + 1) l' x (if String.eqb y x then i else found)
  end.

(** The searched value may be [undefined], which no string entry equals. *)
Definition lastIndexOf (l : list string) (x : option string) : Z :=
  match x with
  | Some v => lastIndexOf_from 0 l v (-1)
  | None => (-1)%Z
  end.

(** [a.indexOf(x)] for a number [x] in an array of numbers. *)
Fixpoint indexOf_from (i : Z) (l : list number) (x : Z) : Z :=
  match l with
  | [] => (-1)%Z
  | y :: l' =>
      match y with
      | Some v => if (v =? x)%Z then i else indexOf_from (i + 1) l' x
      | None => indexOf_from (i + 1) l' x
      end
  end.
Definition indexOf (l : list number) (x : Z) : Z := indexOf_from 0 l x.

(** [a[i]] for a numeric index: [undefined] outside the array. *)
Definition at_index {A : Type} (l : list A) (i : Z) : option A :=
  if (i <? 0)%Z then None else nth_error l (Z.to_nat i).

(** [Array.from(new Set(a))]: first occurrences, in order. *)
Fixpoint dedup (seen : list string) (l : list string) : list string :=
  match l with
  | [] => []
  | x :: l' =>
      if existsb (String.eqb x) seen then dedup seen l'
      else x :: dedup (x :: seen) l'
  end.

(** ** parselst.ts *)

Module ParseLst.

Definition hexc : regex := Char upper_hex.
Definition space : regex := Char (Ascii.eqb " ").

Definition hex4 : regex := Seq hexc (Seq hexc (Seq hexc hexc)).
Definition tail : regex :=
  Seq space (Seq (Opt (Star hexc)) (Seq (Star space) (Named "line" (Star (Char digit))))).

(** The pattern of [parseLst]: the group [address], four characters of
    [0-9A-F]; one space; an optional run of [0-9A-F]; a run of spaces;
    the group [line], a run of decimal digits. *)
Definition pattern : regex := Seq (Named "address" hex4) tail.

(** The loop [for (let i = lines.length - 1; i >= 0; i--)], over the
    lines from the last to the first. Both groups take part in every
    match ([pattern_groups] below), so the branches for an [undefined]
    group are never taken. *)
Fixpoint scan (rlines : list string) (lineMap : list string) (lastLine : number)
  : list string * number :=
  match rlines with
  | [] => (lineMap, lastLine)
  | l :: rest =>
      match js_match l pattern with
      | Some m =>
          let line := match group m "line" with
                      | Some d => parseInt d 10
                      | None => None
                      end in
          match group m "address" with
          | Some address =>
              if num_neq lastLine (Some (-1)%Z)
                 && num_neq line (option_map (fun z => z - 1)%Z lastLine)
              then (lineMap, lastLine)
              else scan rest (address :: lineMap) line
          | None => (lineMap, lastLine)
          end
      | None => scan rest lineMap lastLine
      end
  end.

(** The loop [for (; lastLine > 1; lastLine--) lineMap.unshift('0000')]. *)
Equations? pad (lastLine : Z) (lineMap : list string) : list string
  by wf (Z.to_nat lastLine) lt :=
  pad lastLine lineMap with Z_gt_dec lastLine 1 => {
    | left _ => pad (lastLine - 1) ("0000" :: lineMap)
    | right _ => lineMap }.
Proof. lia. Qed.

Definition lineMap_of (data : string) : list string :=
  let '(lineMap, lastLine) := scan (rev (split_crlf data)) [] (Some (-1)%Z) in
  match lastLine with
  | Some z => pad z lineMap
  | None => lineMap
  end.

(** [asmPath.slice(0, asmPath.length - 3) + 'lst']: [length] counts the
    code units of the path, here its characters. *)
Definition lst_path (asmPath : string) : string :=
  substring 0 (String.length asmPath - 3) asmPath ++ "lst".

(** [parseLst]: [readFile] is the file system, [None] for a read error,
    which rejects the promise. *)
Definition parseLst (readFile : string -> option string) (asmPath : string)
  : option (list string) :=
  match readFile (lst_path asmPath) with
  | None => None
  | Some data => Some (lineMap_of data)
  end.

(** A four-character uppercase hexadecimal string, [/^[0-9A-F]{4}$/]. *)
Definition is_hex4 (s : string) : bool :=
  match s with
  | String a (String b (String c (String d EmptyString))) =>
      upper_hex a && upper_hex b && upper_hex c && upper_hex d
  | _ => false
  end.

End ParseLst.

(** ** runtime.ts: the state of a [Runtime] *)

Module Runtime.

Definition interactive : regex := Lit "> ".
Definition carriageReturn : regex := Char (Ascii.eqb CR).

(** [type Matcher = SingleMatcher | MultiMatcher]; [resolve] names the
    promise the matcher settles. *)
Inductive Matcher : Type :=
| SingleMatcher (pattern : regex) (resolve : nat)
| MultiMatcher (pattern : regex) (resolve : nat) (matches : list RegExpMatchArray).

Definition resolve_of (m : Matcher) : nat :=
  match m with
  | SingleMatcher _ r => r
  | MultiMatcher _ r _ => r
  end.

(** The value a promise was resolved with. *)
Inductive Resolution : Type :=
| One (m : RegExpMatchArray)
| Many (ms : list RegExpMatchArray).

(** [None] in a text field is [undefined]. *)
Record Instruction : Type := {
  address : option string;
  instruction : option string;
  line : Z
}.

Record State : Type := {
  written : list string;                 (* texts given to process.write *)
  emitted : list string;                 (* payloads of the 'output' event *)
  matchers : list Matcher;
  outputBuffer : list string;
  lineMap : option (list string);
  instructionList : option (list number);
  file : option string;
  listening : bool;                      (* dataListener not yet disposed *)
  settled : list (nat * Resolution);     (* calls of resolve, oldest first *)
  promises : nat                         (* promises created so far *)
}.

Definition init : State :=
  {| written := []; emitted := []; matchers := []; outputBuffer := [];
     lineMap := None; instructionList := None; file := None;
     listening := true; settled := []; promises := 0 |}.

Definition set_matchers (q : list Matcher) (st : State) : State :=
  {| written := written st; emitted := emitted st; matchers := q;
     outputBuffer := outputBuffer st; lineMap := lineMap st;
     instructionList := instructionList st; file := file st;
     listening := listening st; settled := settled st; promises := promises st |}.

Definition set_outputBuffer (b : list string) (st : State) : State :=
  {| written := written st; emitted := emitted st; matchers := matchers st;
     outputBuffer := b; lineMap := lineMap st;
     instructionList := instructionList st; file := file st;
     listening := listening st; settled := settled st; promises := promises st |}.

Definition set_settled (l : list (nat * Resolution)) (st : State) : State :=
  {| written := written st; emitted := emitted st; matchers := matchers st;
     outputBuffer := outputBuffer st; lineMap := lineMap st;
     instructionList := instructionList st; file := file st;
     listening := listening st; settled := l; promises := promises st |}.

Definition set_promises (n : nat) (st : State) : State :=
  {| written := written st; emitted := emitted st; matchers := matchers st;
     outputBuffer := outputBuffer st; lineMap := lineMap st;
     instructionList := instructionList st; file := file st;
     listening := listening st; settled := settled st; promises := n |}.

Definition set_written (w : list string) (st : State) : State :=
  {| written := w; emitted := emitted st; matchers := matchers st;
     outputBuffer := outputBuffer st; lineMap := lineMap st;
     instructionList := instructionList st; file := file st;
     listening := listening st; settled := settled st; promises := promises st |}.

Definition set_emitted (e : list string) (st : State) : State :=
  {| written := written st; emitted := e; matchers := matchers st;
     outputBuffer := outputBuffer st; lineMap := lineMap st;
     instructionList := instructionList st; file := file st;
     listening := listening st; settled := settled st; promises := promises st |}.

Definition set_listening (b : bool) (st : State) : State :=
  {| written := written st; emitted := emitted st; matchers := matchers st;
     outputBuffer := outputBuffer st; lineMap := lineMap st;
     instructionList := instructionList st; file := file st;
     listening := b; settled := settled st; promises := promises st |}.

Definition set_file (f : string) (st : State) : State :=
  {| written := written st; emitted := emitted st; matchers := matchers st;
     outputBuffer := outputBuffer st; lineMap := lineMap st;
     instructionList := instructionList st; file := Some f;
     listening := listening st; settled := settled st; promises := promises st |}.

Definition set_maps (lm : list string) (il : list number) (st : State) : State :=
  {| written := written st; emitted := emitted st; matchers := matchers st;
     outputBuffer := outputBuffer st; lineMap := Some lm;
     instructionList := Some il; file := file st;
     listening := listening st; settled := settled st; promises := promises st |}.

(** [matcher.resolve(v)] *)
Definition call_resolve (p : nat) (v : Resolution) (st : State) : State :=
  set_settled (settled st ++ [(p, v)]) st.

Fixpoint settled_value (p : nat) (l : list (nat * Resolution)) : option Resolution :=
  match l with
  | [] => None
  | (q, v) :: l' => if (q =? p)%nat then Some v else settled_value p l'
  end.

(** [sendCommand]: the command and its arguments joined by spaces, then
    CRLF; [join] prints an [undefined] argument as the empty text. *)
Definition CRLF : string := String CR (String LF "").

Definition sendCommand (command : string) (args : list (option string)) (st : State) : State :=
  let words := command :: map (fun a => match a with Some v => v | None => "" end) args in
  set_written (written st ++ [(String.concat " " words ++ CRLF)%string]) st.

(** *** The matcher queue *)

(** [runNextMatcher(input)]: [None] is the [TypeError] of reading a
    property of [this.matchers[0]] when the queue is empty. *)
Definition runNextMatcher (input : string) (st : State) : option (bool * State) :=
  match matchers st with
  | [] => None
  | SingleMatcher pattern resolve :: rest =>
      match js_match input pattern with
      | Some m => Some (true, set_matchers rest (call_resolve resolve (One m) st))
      | None => Some (false, st)
      end
  | MultiMatcher pattern resolve matches :: rest =>
      let cr := match matches with
                | [] => js_match input carriageReturn
                | _ :: _ => None
                end in
      match cr with
      | Some cr =>
          (* Skip the line containing the command *)
          Some (false, set_matchers (MultiMatcher pattern resolve (matches ++ [cr]) :: rest) st)
      | None =>
          match js_match input interactive with
          | Some _ =>
              (* Discard the first line *)
              Some (true, set_matchers rest (call_resolve resolve (Many (tl matches)) st))
          | None =>
              match js_match input pattern with
              | Some m =>
                  Some (false,
                        set_matchers (MultiMatcher pattern resolve (matches ++ [m]) :: rest) st)
              | None => Some (false, st)
              end
          end
      end
  end.

(** [while (this.outputBuffer.length > 0)
       if (this.runNextMatcher(this.outputBuffer.shift())) return] *)
Fixpoint drain_loop (buffer : list string) (st : State) : option State :=
  match buffer with
  | [] => Some (set_outputBuffer [] st)
  | l :: rest =>
      match runNextMatcher l (set_outputBuffer rest st) with
      | Some (true, st') => Some st'
      | Some (false, st') => drain_loop rest st'
      | None => None
      end
  end.

Definition drain (st : State) : option State := drain_loop (outputBuffer st) st.

(** The executor of the promises of [matchResponse] and
    [matchUntilInteractive]: queue the matcher, drain the buffer. *)
Definition queue (mk : nat -> Matcher) (st : State) : option (nat * State) :=
  let p := promises st in
  let st1 := set_promises (S p) st in
  match drain (set_matchers (matchers st1 ++ [mk p]) st1) with
  | Some st2 => Some (p, st2)
  | None => None
  end.

(** [matchResponse(...patterns)]: the promises created, in order. *)
Fixpoint matchResponse (patterns : list regex) (st : State) : option (list nat * State) :=
  match patterns with
  | [] => Some ([], st)
  | pattern :: rest =>
      match queue (SingleMatcher pattern) st with
      | Some (p, st1) =>
          match matchResponse rest st1 with
          | Some (ps, st2) => Some (p :: ps, st2)
          | None => None
          end
      | None => None
      end
  end.

Definition matchUntilInteractive (pattern : regex) (st : State) : option (nat * State) :=
  queue (fun p => MultiMatcher pattern p []) st.

(** *** The data listener of [initialize] *)

Definition ESC : ascii := ascii_of_nat 27.

(** [rawData.replace(/\x1B\[(\d)C/g, (_, spaces) => ' '.repeat(parseInt(spaces)))] *)
Fixpoint replaceCursorRight (s : string) : string :=
  match s with
  | EmptyString => EmptyString
  | String c s1 =>
      match s1 with
      | String c1 (String d (String c3 s4)) =>
          if Ascii.eqb c ESC && Ascii.eqb c1 "[" && digit d && Ascii.eqb c3 "C"
          then (String.concat "" (repeat " " (nat_of_ascii d - 48)) ++ replaceCursorRight s4)%string
          else String c (replaceCursorRight s1)
      | _ => String c (replaceCursorRight s1)
      end
  end.

(** What the listener does with the sanitized text. *)
Definition feed (data : string) (st : State) : option State :=
  match matchers st with
  | _ :: _ =>
      match runNextMatcher data st with
      | Some (_, st') => Some st'
      | None => None
      end
  | [] => Some (set_outputBuffer (outputBuffer st ++ [data]) st)
  end.

(** The listener; [stripAnsi] is the function of the strip-ansi package. *)
Definition onData (stripAnsi : string -> string) (rawData : string) (st : State)
  : option State :=
  feed (stripAnsi (replaceCursorRight rawData)) (set_emitted (emitted st ++ [rawData]) st).

(** [initialize], once the process is spawned and the listener set: the
    dummy command and the two expectations awaited. *)
Definition initialize_send (st : State) : option (list nat * State) :=
  matchResponse [Lit "A ="; interactive] (sendCommand "r" [] st).

(** *** Operations

    An [async] method is split where it awaits: the part that runs before
    the [await] changes the state and names the promises awaited; the
    part after it builds the value returned from what they were resolved
    with. *)

Inductive outcome (A E : Type) : Type :=
| Returned (a : A)
| Thrown (e : E).
Arguments Returned {A E} a.
Arguments Thrown {A E} e.

(** [await Promise.all(ps)]: the values, once every promise is settled. *)
Fixpoint await_all (ps : list nat) (st : State) : option (list Resolution) :=
  match ps with
  | [] => Some []
  | p :: ps' =>
      match settled_value p (settled st), await_all ps' st with
      | Some v, Some vs => Some (v :: vs)
      | _, _ => None
      end
  end.

(** **** setBreakpoints *)

(** [lines.map((line) => line < this.lineMap.length
                          ? this.lineMap[line]
                          : this.lineMap[this.lineMap.length])] *)
Definition breakpointAddress (lineMap : list string) (line : Z) : option string :=
  if (line <? Z.of_nat (length lineMap))%Z
  then at_index lineMap line
  else at_index lineMap (Z.of_nat (length lineMap)).

Definition sendBreakpoints (addresses : list (option string)) (st : State) : State :=
  fold_left (fun st address => sendCommand "bron" [address] st) addresses st.

(** Before the [await] of [matchResponse]: the addresses, the promises
    awaited and the state. [Thrown] is the rejection passed on from
    [parseLst], with the state it leaves. *)
Definition setBreakpoints_send (readFile : string -> option string)
    (path : string) (lines : list Z) (st : State)
  : option (outcome (list (option string) * list nat * State) State) :=
  let st0 := set_file path st in
  let parsed := match lineMap st0 with
                | Some lm => Some lm
                | None => ParseLst.parseLst readFile path
                end in
  match parsed with
  | None => Some (Thrown st0)
  | Some lm =>
      let il := map (fun a => parseInt a 16) (dedup [] lm) in
      let st1 := set_maps lm il st0 in
      let addresses := map (breakpointAddress lm) lines in
      let st2 := sendBreakpoints addresses (sendCommand "brc" [] st1) in
      match matchResponse (repeat interactive (length addresses + 1)) st2 with
      | Some (ps, st3) => Some (Returned (addresses, ps, st3))
      | None => None
      end
  end.

(** [addresses.map((address) => this.lineMap.lastIndexOf(address))] *)
Definition setBreakpoints_return (addresses : list (option string)) (st : State) : list Z :=
  match lineMap st with
  | Some lm => map (lastIndexOf lm) addresses
  | None => []
  end.

(** **** readVariable *)

(** The alternation of [readVariable]: the group [data], which is the
    whole input when it is a non-empty run of [0-9A-F] (anchored at both
    ends), or else a carriage return. *)
Definition anchored : regex := Seq Bol (Seq (Plus (Char upper_hex)) Eol).
Definition readPattern : regex := Alt (Named "data" anchored) (Char (Ascii.eqb CR)).

Definition readVariable_send (register : string) (st : State) : option (list nat * State) :=
  matchResponse [carriageReturn; readPattern] (sendCommand register [] st).

(** After [const [_, result] = await ...]. *)
Definition readVariable_return (result : RegExpMatchArray) : outcome string string :=
  match group result "data" with
  | Some EmptyString => Thrown (input result)
  | Some data => Returned data
  | None => Thrown (input result)
  end.

(** The settlement of the promise of [readVariable], [None] while it
    is pending. *)
Definition readVariable_await (ps : list nat) (st : State) : option (outcome string string) :=
  match await_all ps st with
  | Some [_; One result] => Some (readVariable_return result)
  | _ => None
  end.

(** **** disassemble *)

(** The pattern of [disassemble]: the group [address], a non-empty run of
    [0-9A-F]; a colon; a run of spaces; the group [instruction], a
    non-empty run of characters other than line terminators. *)
Definition disassemblePattern : regex :=
  Seq (Named "address" (Plus (Char upper_hex)))
    (Seq (Char (Ascii.eqb ":"))
       (Seq (Star (Char (Ascii.eqb " ")))
          (Named "instruction" (Plus (Char dot))))).

Definition nop (i : Z) : Instruction :=
  {| address := Some (if negb (i =? -1)%Z then toString16 (Some i) else "-1 ");
     instruction := Some "00        nop";
     line := (-1)%Z |}.

(** [for (let i = startInstr; i < 0 && i < startInstr + instructionCount; i++)
       results.push(...)] *)
Equations? padNegative (i : Z) (bound : Z) (results : list Instruction) : list Instruction
  by wf (Z.to_nat (- i)) lt :=
  padNegative i bound results with Z_lt_dec i 0 => {
    | left _ with Z_lt_dec i bound => {
        | left _ => padNegative (i + 1) bound (results ++ [nop i])
        | right _ => results }
    | right _ => results }.
Proof. lia. Qed.

(** [this.instructionList[this.instructionList.length - 1]]: [undefined]
    for an empty list behaves in what follows as [NaN] does. *)
Definition endAddress (il : list number) : number :=
  match at_index il (Z.of_nat (length il) - 1) with
  | Some n => n
  | None => None
  end.

(** The index of the instruction at [address]. The sums are those of the
    integers, which the doubles of the source give while the address, the
    length of the list and its addresses stay within 2^53. *)
Definition baseInstr (il : list number) (address : Z) : Z :=
  if (address <? 0)%Z then address
  else match endAddress il with
       | Some e => if (e <? address)%Z
                   then Z.of_nat (length il) - 1 + address - e
                   else indexOf il address
       | None => indexOf il address
       end.

(** The address and count of the [u] command when the window reaches a
    non-negative index. *)
Definition debuggerWindow (il : list number) (startInstr instructionCount : Z)
  : number * Z :=
  if (startInstr <? 0)%Z then (Some 0%Z, instructionCount + startInstr)%Z
  else if (Z.of_nat (length il) <=? startInstr)%Z
       then (option_map (fun e => e + startInstr - (Z.of_nat (length il) - 1))%Z (endAddress il),
             instructionCount)
       else (match at_index il startInstr with Some n => n | None => None end,
             instructionCount).

(** The locals of [disassemble] that live across its [await]. *)
Record Disassembly : Type := {
  results : list Instruction;
  lastAddress : number;            (* endAddress *)
  awaited : option nat             (* the promise of matchUntilInteractive *)
}.

(** Before the [await]. [None] is the [TypeError] of reading
    [instructionList] before any [setBreakpoints]. *)
Definition disassemble_send (address instructionCount instructionOffset : Z) (st : State)
  : option (Disassembly * State) :=
  match instructionList st with
  | None => None
  | Some il =>
      let startInstr := (baseInstr il address + instructionOffset)%Z in
      let results := padNegative startInstr (startInstr + instructionCount) [] in
      if (0 <? startInstr + instructionCount)%Z then
        let '(debuggerStartAddress, debuggerInstructionCount) :=
          debuggerWindow il startInstr instructionCount in
        let st1 := sendCommand "u" [Some (toString16 debuggerStartAddress);
                                    Some (toString16 (Some debuggerInstructionCount))] st in
        match matchUntilInteractive disassemblePattern st1 with
        | Some (p, st2) =>
            Some ({| results := results; lastAddress := endAddress il; awaited := Some p |},
                  st2)
        | None => None
        end
      else Some ({| results := results; lastAddress := endAddress il; awaited := None |}, st)
  end.

(** The record built from a line of the device; [None] is the
    [TypeError] of [this.lineMap.lastIndexOf] without a line map. *)
Definition deviceRecord (endAddress : number) (lm : option (list string))
    (m : RegExpMatchArray) : option Instruction :=
  let address := group m "address" in
  let parsed := match address with Some a => parseInt a 16 | None => None end in
  let record l := {| address := address; instruction := group m "instruction"; line := l |} in
  if num_le parsed endAddress
  then option_map (fun lm => record (lastIndexOf lm address)) lm
  else Some (record (-1)%Z).

Fixpoint mapM {A B : Type} (f : A -> option B) (l : list A) : option (list B) :=
  match l with
  | [] => Some []
  | x :: l' =>
      match f x, mapM f l' with
      | Some y, Some ys => Some (y :: ys)
      | _, _ => None
      end
  end.

(** [return [...results, ...debuggerResults.map(...)]] *)
Definition disassemble_return (d : Disassembly)
    (debuggerResults : list RegExpMatchArray) (st : State) : option (list Instruction) :=
  option_map (app (results d))
    (mapM (deviceRecord (lastAddress d) (lineMap st)) debuggerResults).

(** The settlement of the promise of [disassemble]: [None] while it is
    pending (or after a [TypeError]). *)
Definition disassemble_await (d : Disassembly) (st : State) : option (list Instruction) :=
  match awaited d with
  | None => disassemble_return d [] st
  | Some p =>
      match settled_value p (settled st) with
      | Some (Many debuggerResults) => disassemble_return d debuggerResults st
      | _ => None
      end
  end.

(** **** terminate *)

Definition terminate_send (st : State) : State := sendCommand "exit" [] st.

(** The exit listener: it disposes of the data listener and settles the
    promise of [terminate]. *)
Definition terminate_onExit (exitCode : Z) (st : State) : outcome unit Z * State :=
  (if negb (exitCode =? 0)%Z then Thrown exitCode else Returned tt,
   set_listening false st).

(** *** Sessions of the matcher queue *)

Inductive Event : Type :=
| Data (rawData : string)
| MatchResponse (patterns : list regex)
| MatchUntilInteractive (pattern : regex)
| SendCommand (command : string) (args : list (option string)).

Definition step (stripAnsi : string -> string) (e : Event) (st : State) : option State :=
  match e with
  | Data rawData => if listening st then onData stripAnsi rawData st else Some st
  | MatchResponse patterns => option_map snd (matchResponse patterns st)
  | MatchUntilInteractive pattern => option_map snd (matchUntilInteractive pattern st)
  | SendCommand command args => Some (sendCommand command args st)
  end.

Fixpoint run (stripAnsi : string -> string) (es : list Event) (st : State) : option State :=
  match es with
  | [] => Some st
  | e :: es' =>
      match step stripAnsi e st with
      | Some st' => run stripAnsi es' st'
      | None => None
      end
  end.

(** Sanitized lines given to the listener one after the other. *)
Fixpoint feed_all (chunks : list string) (st : State) : option State :=
  match chunks with
  | [] => Some st
  | c :: cs =>
      match feed c st with
      | Some st' => feed_all cs st'
      | None => None
      end
  end.

End Runtime.
Import Runtime.

(** ** adapter.ts: termination *)

Module Adapter.

Inductive DapEvent : Type :=
| Response
| TerminatedEvent
| ExitedEvent (exitCode : Z).

(** [terminateRequest] once the process has exited with [exitCode]:
    the response was sent before the [await]. *)
Definition terminateRequest (exitCode : Z) (st : State) : list DapEvent * State :=
  let '(result, st') := terminate_onExit exitCode (terminate_send st) in
  let exitCode := match result with
                  | Returned _ => 0%Z
                  | Thrown e => e
                  end in
  ([Response; TerminatedEvent; ExitedEvent exitCode], st').

End Adapter.

(** * Vocabulary of the properties *)

(** The promises are numbered in the order of their creation; a state is
    consistent when the promises settled so far, in the order of their
    settlement, followed by those of the waiting matchers, in the order of
    the queue, are the promises created, in the order of their creation. *)
Definition consistent (st : State) : Prop :=
  map fst (settled st) ++ map resolve_of (matchers st) = seq 0 (promises st).

(** The backlog holds text only while no matcher waits. *)
Definition backlog_idle (st : State) : Prop :=
  matchers st = [] \/ outputBuffer st = [].

(** What a call of [runNextMatcher] may change: nothing but the head of
    the queue, which is either kept (possibly with one more match
    recorded) or removed and settled. *)
Inductive head_step (st st' : State) : bool -> Prop :=
| head_kept (m m' : Matcher) (rest : list Matcher) :
    matchers st = m :: rest ->
    st' = set_matchers (m' :: rest) st ->
    resolve_of m' = resolve_of m ->
    head_step st st' false
| head_settled (m : Matcher) (rest : list Matcher) (v : Resolution) :
    matchers st = m :: rest ->
    st' = set_matchers rest (call_resolve (resolve_of m) v st) ->
    head_step st st' true.

(** The matches of the lines of [contents] the pattern matches, in order. *)
Fixpoint collect (pattern : regex) (contents : list string) : list RegExpMatchArray :=
  match contents with
  | [] => []
  | c :: rest =>
      match js_match c pattern with
      | Some m => m :: collect pattern rest
      | None => collect pattern rest
      end
  end.

(** The lines that serve a waiting matcher, and the value they settle its
    promise with. A single matcher is served by lines its pattern does not
    match followed by one it matches. A multi matcher that has seen nothing
    yet is served by the echoed command line, lines without the prompt
    marker and a line with it; one that has already swallowed the echo, by
    what is left of that exchange. *)
Inductive serves : Matcher -> list string -> Resolution -> Prop :=
| serves_single (pattern : regex) (p : nat) (skipped : list string) (c : string)
    (m : RegExpMatchArray) :
    Forall (fun l => js_match l pattern = None) skipped ->
    js_match c pattern = Some m ->
    serves (SingleMatcher pattern p) (skipped ++ [c]) (One m)
| serves_multi (pattern : regex) (p : nat) (echo : string) (cr : RegExpMatchArray)
    (contents : list string) (prompt : string) :
    js_match echo carriageReturn = Some cr ->
    Forall (fun l => js_match l interactive = None) contents ->
    js_match prompt interactive <> None ->
    serves (MultiMatcher pattern p []) (echo :: contents ++ [prompt])
      (Many (collect pattern contents))
| serves_multi_started (pattern : regex) (p : nat) (m0 : RegExpMatchArray)
    (ms : list RegExpMatchArray) (contents : list string) (prompt : string) :
    Forall (fun l => js_match l interactive = None) contents ->
    js_match prompt interactive <> None ->
    serves (MultiMatcher pattern p (m0 :: ms)) (contents ++ [prompt])
      (Many (ms ++ collect pattern contents)).

(** Blocks of lines that serve the matchers of a queue one after the
    other, in the order of the queue. *)
Inductive served : list Matcher -> list (list string) -> list Resolution -> Prop :=
| served_nil : served [] [] []
| served_cons (m : Matcher) (q : list Matcher) (block : list string)
    (blocks : list (list string)) (v : Resolution) (vs : list Resolution) :
    serves m block v -> served q blocks vs ->
    served (m :: q) (block :: blocks) (v :: vs).

(** The state in which a matcher for a new promise waits alone in the
    queue, with an empty backlog. *)
Definition registered (mk : nat -> Matcher) (st : State) : State :=
  set_outputBuffer [] (set_matchers [mk (promises st)] (set_promises (S (promises st)) st)).

(** A non-empty text of characters [0-9A-F]. *)
Definition is_hex_text (s : string) : bool :=
  match s with
  | EmptyString => false
  | String _ _ => all_chars upper_hex s
  end.

(** The single matchers of [patterns], for the promises from [p] on. *)
Fixpoint singles (patterns : list regex) (p : nat) : list Matcher :=
  match patterns with
  | [] => []
  | pattern :: rest => SingleMatcher pattern p :: singles rest (S p)
  end.

(** The numbers of a call of [disassemble] on which the arithmetic of the
    source, done on doubles, is exact: the addresses of the instruction
    list are not negative and, like every sum the call forms from the
    address, the length of the list and the count, at most 2^53. *)
Definition in_double_range (il : list number) (address instructionCount : Z) : Prop :=
  Forall (fun n => match n with
                   | Some v => (0 <= v <= 2 ^ 53)%Z
                   | None => True
                   end) il
  /\ (address + Z.of_nat (length il) + instructionCount <= 2 ^ 53)%Z.

(** The indices [start], [start + 1], ... ([n] of them). *)
Definition indices (start : Z) (n : nat) : list Z :=
  map (fun k => (start + Z.of_nat k)%Z) (seq 0 n).

(** ** Examples *)

(** The text CMON51 prints for a status request, cut short. *)
Definition status_stream : string := ("A =00" ++ CRLF ++ "> ")%string.

(** The same text received line by line, in one chunk, and cut in the
    middle of a line. *)
Definition by_lines : list string := [("A =00" ++ CRLF)%string; "> "].
Definition in_one_chunk : list string := [status_stream].
Definition cut_mid_line : list string := ["A "; ("=00" ++ CRLF)%string; "> "].

(** The state of the example: the instructions 8000 (line 0), 8003 (line 1)
    and 8006 (line 2). *)
Definition example_state : State :=
  set_maps ["8000"; "8003"; "8006"] [Some 32768%Z; Some 32771%Z; Some 32774%Z] init.

(** What a device holding a jump at address 0 and the program at 8000
    prints for the commands [u 0 2] and [u 8000 4]: the echo of the
    command, one line per instruction, the prompt. *)
Definition reply_from_0 : list string :=
  [ ("u 0 2" ++ CRLF)%string;
    ("0000: 02 80 00  ljmp 8000" ++ CRLF)%string;
    ("0003: 00        nop" ++ CRLF)%string;
    "> " ].

Definition reply_from_8000 : list string :=
  [ ("u 8000 4" ++ CRLF)%string;
    ("8000: 02 80 03  ljmp 8003" ++ CRLF)%string;
    ("8003: 75 90 01  mov P1, #1" ++ CRLF)%string;
    ("8006: 02 80 03  ljmp 8003" ++ CRLF)%string;
    ("8009: 00        nop" ++ CRLF)%string;
    "> " ].

(** A listing and the file system that holds it. *)
Definition listing : string :=
  ("0000              1   org 0" ++ CRLF ++
   "0000 7401         2   mov a, #1" ++ CRLF ++
   "0002 80FE         3   sjmp $" ++ CRLF ++
   "                  4   end" ++ CRLF)%string.

Definition disk (path : string) : option string :=
  if String.eqb path "prog.lst" then Some listing else None.

(** The pattern of [getBreakpoints]: the group [breakpoint], a non-empty
    run of [0-9A-F]. *)
Definition breakpointPattern : regex := Named "breakpoint" (Plus (Char upper_hex)).

(** * runtime.ts: the other operations *)

(** [evaluate] and [setVariable], before their [await]. *)
Definition evaluate_send (input : string) (st : State) : option (list nat * State) :=
  matchResponse [interactive] (sendCommand input [] st).

Definition setVariable_send (register value : string) (st : State)
  : option (list nat * State) :=
  matchResponse [interactive] (sendCommand (register ++ "=" ++ value)%string [] st).

(** The settlement of the promise of an operation that only awaits its
    expectations ([evaluate], [setVariable], [initialize]): [None] while
    one of them waits. *)
Definition prompts_await (ps : list nat) (st : State) : option unit :=
  match await_all ps st with
  | Some _ => Some tt
  | None => None
  end.

(** The settlement of the promise of [setBreakpoints]. *)
Definition setBreakpoints_await (addresses : list (option string)) (ps : list nat)
    (st : State) : option (list Z) :=
  match await_all ps st with
  | Some _ => Some (setBreakpoints_return addresses st)
  | None => None
  end.

(** [getBreakpoints]. The callback of [matches.map] reads [this.lineMap],
    so without a line map it throws ([None]) as soon as there is a match. *)
Definition getBreakpoints_send (st : State) : option (nat * State) :=
  matchUntilInteractive breakpointPattern (sendCommand "brl" [] st).

Definition getBreakpoints_return (matches : list RegExpMatchArray) (st : State)
  : option (list Z) :=
  match matches, lineMap st with
  | [], _ => Some []
  | _ :: _, Some lm => Some (map (fun m => lastIndexOf lm (group m "breakpoint")) matches)
  | _ :: _, None => None
  end.

Definition getBreakpoints_await (p : nat) (st : State) : option (list Z) :=
  match settled_value p (settled st) with
  | Some (Many matches) => getBreakpoints_return matches st
  | _ => None
  end.

(** A pattern made of labels, each followed by a named group that is a
    run of [0-9A-F]: the two patterns of [parseRegisters] have this shape. *)
Fixpoint fields (fs : list (string * string)) : regex :=
  match fs with
  | [] => Eps
  | (label, name) :: rest =>
      Seq (Lit label) (Seq (Named name (Star (Char upper_hex))) (fields rest))
  end.

Definition registerFields1 : list (string * string) :=
  [("A =", "a"); ("  B =", "b"); ("  SP=", "sp"); ("  IE=", "ie");
   ("  DPH=", "dph"); (" DPL=", "dpl"); (" PSW=", "psw"); (" PC=", "pc")].

Definition registerFields2 : list (string * string) :=
  [("R0=", "r0"); ("  R1=", "r1"); ("  R2=", "r2"); ("  R3=", "r3"); ("  R4=", "r4");
   ("  R5=", "r5"); ("  R6=", "r6"); ("  R7=", "r7"); ("  BANK=", "bank")].

Definition registersPattern1 : regex := fields registerFields1.
Definition registersPattern2 : regex := fields registerFields2.

Module Snapshot.

(** [interface Registers]; [None] is [undefined]. *)
Record Registers : Type := {
  a : option string; b : option string; sp : option string; ie : option string;
  dph : option string; dpl : option string; psw : option string; pc : option string;
  r0 : option string; r1 : option string; r2 : option string; r3 : option string;
  r4 : option string; r5 : option string; r6 : option string; r7 : option string;
  bank : option string;
  line : Z
}.

End Snapshot.

(** [parseRegisters], and the three operations that end with it. *)
Definition parseRegisters_send (st : State) : option (list nat * State) :=
  matchResponse [registersPattern1; registersPattern2; interactive] st.

Definition continue_send (st : State) : option (list nat * State) :=
  parseRegisters_send (sendCommand "g" [] st).
Definition variables_send (st : State) : option (list nat * State) :=
  parseRegisters_send (sendCommand "r" [] st).
Definition next_send (st : State) : option (list nat * State) :=
  parseRegisters_send (sendCommand "s" [] st).

(** The object [{...line1.groups, ...line2.groups, line}], read field by
    field: a property of the second spread hides that of the first (the two
    patterns share no name, and each of their groups takes part in every
    match). [None] is the [TypeError] of [this.lineMap.lastIndexOf] without
    a line map. *)
Definition parseRegisters_return (line1 line2 : RegExpMatchArray) (st : State)
  : option Snapshot.Registers :=
  let field name := match group line2 name with
                    | Some v => Some v
                    | None => group line1 name
                    end in
  match lineMap st with
  | None => None
  | Some lm =>
      Some {| Snapshot.a := field "a"; Snapshot.b := field "b"; Snapshot.sp := field "sp";
              Snapshot.ie := field "ie"; Snapshot.dph := field "dph";
              Snapshot.dpl := field "dpl"; Snapshot.psw := field "psw";
              Snapshot.pc := field "pc";
              Snapshot.r0 := field "r0"; Snapshot.r1 := field "r1"; Snapshot.r2 := field "r2";
              Snapshot.r3 := field "r3"; Snapshot.r4 := field "r4"; Snapshot.r5 := field "r5";
              Snapshot.r6 := field "r6"; Snapshot.r7 := field "r7";
              Snapshot.bank := field "bank";
              Snapshot.line := lastIndexOf lm (group line1 "pc") |}
  end.

Definition parseRegisters_await (ps : list nat) (st : State) : option Snapshot.Registers :=
  match await_all ps st with
  | Some [One line1; One line2; _] => parseRegisters_return line1 line2 st
  | _ => None
  end.

(** [disconnect]: the listener is disposed of (the process is killed). *)
Definition disconnect (st : State) : State := set_listening false st.

(** * Vocabulary of the further properties *)

(** The text a pattern of [fields] matches, for the values [vals]. *)
Fixpoint fields_text (fs : list (string * string)) (vals : list string) : string :=
  match fs, vals with
  | (label, _) :: fs', v :: vals' => (label ++ v ++ fields_text fs' vals')%string
  | _, _ => EmptyString
  end.

(** The text empty or starting with a character outside the class. *)
Definition starts_outside (cls : ascii -> bool) (s : string) : bool :=
  match s with
  | EmptyString => true
  | String c _ => negb (cls c)
  end.

(** The text without a character of the class. *)
Definition none_of (cls : ascii -> bool) (s : string) : bool :=
  all_chars (fun c => negb (cls c)) s.

(** Each value of a text of [fields] is followed by a text that does not
    start with a character of [0-9A-F]. *)
Fixpoint well_separated (fs : list (string * string)) (vals : list string)
    (rest : string) : bool :=
  match fs, vals with
  | _ :: fs', _ :: vals' =>
      starts_outside upper_hex (fields_text fs' vals' ++ rest)
      && well_separated fs' vals' rest
  | _, _ => true
  end.

(** A line of the device as [getBreakpoints] reads it: nothing of
    [0-9A-F] in it, or a first run of [0-9A-F] between two texts. *)
Inductive Row : Type :=
| Noise (text : string)
| Hit (before body after : string).

Definition row_text (r : Row) : string :=
  match r with
  | Noise text => text
  | Hit before body after => (before ++ body ++ after)%string
  end.

Definition row_ok (r : Row) : bool :=
  match r with
  | Noise text => none_of upper_hex text
  | Hit before body after =>
      none_of upper_hex before && is_hex_text body && starts_outside upper_hex after
  end.

Fixpoint hits (rows : list Row) : list string :=
  match rows with
  | [] => []
  | Noise _ :: rest => hits rest
  | Hit _ body _ :: rest => body :: hits rest
  end.

(** The raw chunks of the [Data] events of a session, in order. *)
Fixpoint received (events : list Event) : list string :=
  match events with
  | [] => []
  | Data rawData :: rest => rawData :: received rest
  | _ :: rest => received rest
  end.

(** A run of [n] spaces. *)
Definition spaces (n : nat) : string := String.concat "" (repeat " " n).

(** A line of a listing: the address, a space, the bytes of the code, at
    least one space, the line number and the rest of the line. *)
Record LstLine : Type := {
  l_address : string;
  l_bytes : string;
  l_gap : nat;
  l_digits : string;
  l_text : string
}.

Definition lst_line (r : LstLine) : string :=
  (l_address r ++ " " ++ l_bytes r ++ spaces (S (l_gap r)) ++ l_digits r ++ l_text r)%string.

(** The line is well formed and its number is [n]. *)
Definition lst_line_ok (r : LstLine) (n : Z) : Prop :=
  ParseLst.is_hex4 (l_address r) = true
  /\ all_chars upper_hex (l_bytes r) = true
  /\ all_chars digit (l_digits r) = true
  /\ parseInt (l_digits r) 10 = Some n
  /\ starts_outside digit (l_text r) = true.

(** The number [parseLst] reads in a line ([NaN] without a match). *)
Definition line_number (l : string) : number :=
  match js_match l ParseLst.pattern with
  | Some m => match group m "line" with
              | Some d => parseInt d 10
              | None => None
              end
  | None => None
  end.

(** The fields the queue never writes. *)
Definition same_frame (st st' : State) : Prop :=
  emitted st' = emitted st /\ listening st' = listening st
  /\ lineMap st' = lineMap st /\ instructionList st' = instructionList st
  /\ file st' = file st /\ written st' = written st.

(** The text without the escape character. *)
Definition no_escape (s : string) : bool :=
  all_chars (fun c => negb (Ascii.eqb c ESC)) s.

(** The text of a command as [sendCommand] writes it. *)
Definition command_line (words : list string) : string :=
  (String.concat " " words ++ CRLF)%string.

(** * Properties *)

(** ** The matcher of regular expressions *)

Section RegExpFacts.

(** A successful match went through its continuation, and left alone the
    groups the pattern does not name. *)
Lemma exec_inv :
  forall (r : regex) (pos : nat) (s : string) (cs : captures) (k : cont) res,
    exec r pos s cs k = Some res ->
    exists p' s' cs',
      k p' s' cs' = Some res
      /\ forall n, ~ In n (names r) -> lookup n cs' = lookup n cs.
Proof.
  induction r as [| cls | | | r1 IH1 r2 IH2 | r1 IH1 r2 IH2 | r1 IH1 | name r1 IH1];
    intros pos s cs k res H; simpl in H.
  - eauto.
  - destruct s as [| c s']; [discriminate |].
    destruct (cls c); [eauto | discriminate].
  - destruct (pos =? 0)%nat; [eauto | discriminate].
  - destruct s; [eauto | discriminate].
  - apply IH1 in H. destruct H as [p1 [s1 [cs1 [H H1]]]].
    apply IH2 in H. destruct H as [p2 [s2 [cs2 [H H2]]]].
    exists p2, s2, cs2. split; [exact H |].
    intros n Hn. simpl in Hn. rewrite H2, H1; auto using in_or_app.
  - destruct (exec r1 pos s cs k) as [res1 |] eqn:E1.
    + inversion H; subst res1. apply IH1 in E1.
      destruct E1 as [p1 [s1 [cs1 [E1 H1]]]]. exists p1, s1, cs1.
      split; [exact E1 |]. intros n Hn. simpl in Hn. apply H1. auto using in_or_app.
    + apply IH2 in H. destruct H as [p2 [s2 [cs2 [H H2]]]]. exists p2, s2, cs2.
      split; [exact H |]. intros n Hn. simpl in Hn. apply H2. auto using in_or_app.
  - remember (String.length s) as fuel eqn:Efuel. clear Efuel. revert pos s cs H.
    induction fuel as [| fuel IHf]; intros pos s cs H; simpl in H; [eauto |].
    match type of H with
    | match ?e with _ => _ end = _ => destruct e as [res1 |] eqn:E1
    end; [| eauto].
    inversion H; subst res1. apply IH1 in E1.
    destruct E1 as [p1 [s1 [cs1 [E1 H1]]]].
    destruct (pos <? p1)%nat; [| discriminate].
    apply IHf in E1. destruct E1 as [p2 [s2 [cs2 [E1 H2]]]].
    exists p2, s2, cs2. split; [exact E1 |].
    intros n Hn. rewrite H2, H1; auto.
  - apply IH1 in H. destruct H as [p1 [s1 [cs1 [H H1]]]].
    exists p1, s1, ((name, substring 0 (p1 - pos) s) :: cs1). split; [exact H |].
    intros n Hn. simpl in Hn. simpl.
    destruct (String.eqb_spec name n) as [-> | _]; [tauto |]. apply H1. tauto.
Qed.

(** A successful [search] found its match at some suffix of the input. *)
Lemma search_inv :
  forall (r : regex) (s : string) (pos b e : nat) (cs : captures),
    search r pos s = Some (b, e, cs) ->
    exists s', exec r b s' [] accept = Some (e, cs).
Proof.
  induction s as [| c s IH]; intros pos b e cs H; simpl in H.
  - destruct (exec r pos "" [] accept) as [[e' cs'] |] eqn:E; [| discriminate].
    inversion H; subst. eauto.
  - destruct (exec r pos (String c s) [] accept) as [[e' cs'] |] eqn:E.
    + inversion H; subst. eauto.
    + eauto.
Qed.

(** A greedy run of a character class followed by the end of the input
    succeeds exactly on the inputs made of the class. *)
Lemma iter_class_eol :
  forall (cls : ascii -> bool) (k : cont) (s : string) (fuel pos : nat) (cs : captures),
    all_chars cls s = true ->
    String.length s <= fuel ->
    iter (exec (Char cls)) (fun p s' cs' => exec Eol p s' cs' k) fuel pos s cs
    = k (pos + String.length s) "" cs.
Proof.
  induction s as [| c s IH]; intros fuel pos cs Hall Hfuel.
  - rewrite Nat.add_0_r. destruct fuel; reflexivity.
  - simpl in Hall. apply andb_true_iff in Hall. destruct Hall as [Hc Hall].
    destruct fuel as [| fuel]; [simpl in Hfuel; lia |].
    simpl. rewrite Hc.
    replace (pos <? S pos)%nat with true by (symmetry; apply Nat.ltb_lt; lia).
    rewrite IH by (simpl in Hfuel; auto; lia).
    replace (S pos + String.length s) with (pos + S (String.length s)) by lia.
    destruct (k _ _ _); reflexivity.
Qed.

Lemma iter_class_eol_inv :
  forall (cls : ascii -> bool) (k : cont) (fuel : nat) (s : string) (pos : nat)
         (cs : captures) res,
    iter (exec (Char cls)) (fun p s' cs' => exec Eol p s' cs' k) fuel pos s cs = Some res ->
    all_chars cls s = true.
Proof.
  induction fuel as [| fuel IH]; intros s pos cs res H; simpl in H.
  - destruct s; [reflexivity | discriminate].
  - destruct s as [| c s]; [reflexivity |].
    destruct (cls c) eqn:Hc; [| discriminate].
    destruct (pos <? S pos)%nat; [| discriminate].
    simpl. rewrite Hc. simpl.
    match type of H with
    | match ?e with _ => _ end = _ => destruct e as [res1 |] eqn:E1
    end; [| discriminate].
    eapply IH. exact E1.
Qed.

Lemma substring_all (s : string) : substring 0 (String.length s) s = s.
Proof. induction s as [| c s IH]; simpl; [reflexivity | now rewrite IH]. Qed.

Lemma exec_Seq (r1 r2 : regex) pos s cs k :
  exec (Seq r1 r2) pos s cs k = exec r1 pos s cs (fun p' s' cs' => exec r2 p' s' cs' k).
Proof. reflexivity. Qed.

Lemma exec_Alt (r1 r2 : regex) pos s cs k :
  exec (Alt r1 r2) pos s cs k
  = match exec r1 pos s cs k with
    | Some res => Some res
    | None => exec r2 pos s cs k
    end.
Proof. reflexivity. Qed.

Lemma exec_Named (name : string) (r : regex) pos s cs k :
  exec (Named name r) pos s cs k
  = exec r pos s cs (fun p' s' cs' => k p' s' ((name, substring 0 (p' - pos) s) :: cs')).
Proof. reflexivity. Qed.

End RegExpFacts.

(** ** The line map of a listing *)

Section ParseLstFacts.

Import ParseLst.

(** The group [address] holds four characters of [0-9A-F]. *)
Lemma exec_address :
  forall pos s cs k res,
    exec (Named "address" hex4) pos s cs k = Some res ->
    exists a rest, is_hex4 a = true /\ k (4 + pos) rest (("address", a) :: cs) = Some res.
Proof.
  intros pos s cs k res H. rewrite exec_Named in H. unfold hex4, hexc in H.
  cbn [exec] in H.
  destruct s as [| c1 [| c2 [| c3 [| c4 rest]]]]; cbn [exec] in H;
    repeat match type of H with
           | (if ?b then _ else _) = _ => destruct b eqn:?; [| discriminate]
           | None = Some _ => discriminate
           end.
  replace (S (S (S (S pos))) - pos) with 4 in H by lia. cbn [substring] in H.
  replace (substring 0 0 rest) with "" in H by (destruct rest; reflexivity).
  exists (String c1 (String c2 (String c3 (String c4 ""))) ), rest. split; [| exact H].
  simpl. repeat (apply andb_true_iff; split); assumption.
Qed.

(** Both groups take part in every match of the pattern. *)
Lemma pattern_groups :
  forall pos s e cs,
    exec pattern pos s [] accept = Some (e, cs) ->
    exists a d, lookup "address" cs = Some a /\ is_hex4 a = true /\ lookup "line" cs = Some d.
Proof.
  intros pos s e cs H.
  unfold pattern in H. rewrite exec_Seq in H.
  apply exec_address in H. destruct H as [a [rest [Ha H]]].
  unfold tail in H. rewrite exec_Seq in H. apply exec_inv in H.
  destruct H as [p1 [s1 [cs1 [H H1]]]].
  rewrite exec_Seq in H. apply exec_inv in H. destruct H as [p2 [s2 [cs2 [H H2]]]].
  rewrite exec_Seq in H. apply exec_inv in H. destruct H as [p3 [s3 [cs3 [H H3]]]].
  rewrite exec_Named in H. apply exec_inv in H. destruct H as [p4 [s4 [cs4 [H H4]]]].
  unfold accept in H. inversion H; subst e cs. clear H.
  exists a. eexists. split; [| split; [exact Ha | reflexivity]].
  simpl. rewrite H4, H3, H2, H1; simpl; try tauto.
Qed.

Lemma js_match_pattern_groups :
  forall l m,
    js_match l pattern = Some m ->
    exists a d, group m "address" = Some a /\ is_hex4 a = true /\ group m "line" = Some d.
Proof.
  intros l m H. unfold js_match in H.
  destruct (search pattern 0 l) as [[[b e] cs] |] eqn:E; [| discriminate].
  inversion H; subst m. clear H. unfold group. simpl.
  apply search_inv in E. destruct E as [s' E]. eapply pattern_groups. exact E.
Qed.

Lemma scan_hex4 :
  forall rlines lineMap lastLine,
    Forall (fun a => is_hex4 a = true) lineMap ->
    Forall (fun a => is_hex4 a = true) (fst (scan rlines lineMap lastLine)).
Proof.
  induction rlines as [| l rest IH]; intros lineMap lastLine Hall; simpl; [exact Hall |].
  destruct (js_match l pattern) as [m |] eqn:Em; [| now apply IH].
  destruct (js_match_pattern_groups _ _ Em) as [a [d [Ha [Hhex Hd]]]].
  rewrite Ha.
  destruct (num_neq lastLine (Some (-1)%Z) && _); [exact Hall |].
  apply IH. constructor; assumption.
Qed.

Lemma pad_unfold (lastLine : Z) (lineMap : list string) :
  pad lastLine lineMap
  = if (1 <? lastLine)%Z then pad (lastLine - 1) ("0000" :: lineMap) else lineMap.
Proof.
  rewrite pad_equation_1. unfold pad_unfold_clause_1.
  destruct (Z_gt_dec lastLine 1) as [H | H].
  - replace (1 <? lastLine)%Z with true by (symmetry; apply Z.ltb_lt; lia). reflexivity.
  - replace (1 <? lastLine)%Z with false by (symmetry; apply Z.ltb_nlt; lia). reflexivity.
Qed.

(** The padding loop puts [lastLine - 1] entries 0000 in front. *)
Lemma pad_spec :
  forall (n : nat) (lastLine : Z) (lineMap : list string),
    n = Z.to_nat (lastLine - 1) ->
    pad lastLine lineMap = repeat "0000" n ++ lineMap.
Proof.
  induction n as [| n IH]; intros lastLine lineMap Hn; rewrite pad_unfold.
  - replace (1 <? lastLine)%Z with false by (symmetry; apply Z.ltb_nlt; lia). reflexivity.
  - replace (1 <? lastLine)%Z with true by (symmetry; apply Z.ltb_lt; lia).
    rewrite (IH (lastLine - 1)%Z) by lia.
    change (repeat "0000" (S n)) with ("0000" :: repeat "0000" n).
    rewrite (repeat_cons n "0000"). now rewrite <- app_assoc.
Qed.

(** The map is the entries read from the listing behind the padding. *)
Lemma lineMap_of_shape :
  forall data,
    exists n,
      lineMap_of data
      = repeat "0000" n ++ fst (scan (rev (split_crlf data)) [] (Some (-1)%Z)).
Proof.
  intros data. unfold lineMap_of.
  destruct (scan (rev (split_crlf data)) [] (Some (-1)%Z)) as [lm [z |]]; simpl.
  - exists (Z.to_nat (z - 1)). now apply pad_spec.
  - exists 0. reflexivity.
Qed.

End ParseLstFacts.

(** C10. Every entry of the array [parseLst] returns is a four-character
    uppercase hexadecimal string: the array is some entries 0000 followed
    by the addresses read from the listing, each of which is four
    characters of [0-9A-F]. *)
Theorem parseLst_entries_hex4 :
  forall (readFile : string -> option string) (asmPath : string) (lineMap : list string),
    ParseLst.parseLst readFile asmPath = Some lineMap ->
    Forall (fun a => ParseLst.is_hex4 a = true) lineMap
    /\ exists n extracted,
         lineMap = repeat "0000" n ++ extracted
         /\ Forall (fun a => ParseLst.is_hex4 a = true) extracted.
Proof.
  intros readFile asmPath lineMap H. unfold ParseLst.parseLst in H.
  destruct (readFile (ParseLst.lst_path asmPath)) as [data |]; [| discriminate].
  inversion H; subst lineMap. clear H.
  destruct (lineMap_of_shape data) as [n Hn].
  assert (Hx : Forall (fun a => ParseLst.is_hex4 a = true)
                 (fst (ParseLst.scan (rev (split_crlf data)) [] (Some (-1)%Z))))
    by (apply scan_hex4; constructor).
  split.
  - rewrite Hn. apply Forall_app. split; [| exact Hx].
    apply Forall_forall. intros a Ha. apply repeat_spec in Ha. now subst a.
  - exists n. eexists. split; [exact Hn | exact Hx].
Qed.


(** ** The matcher queue *)

Section QueueFacts.

Lemma set_matchers_same (st : State) : set_matchers (matchers st) st = st.
Proof. destruct st; reflexivity. Qed.

Lemma runNextMatcher_head :
  forall input st consumed st',
    runNextMatcher input st = Some (consumed, st') -> head_step st st' consumed.
Proof.
  intros input st consumed st' H. unfold runNextMatcher in H.
  destruct (matchers st) as [| [pattern p | pattern p ms] rest] eqn:Eq; [discriminate | |].
  - destruct (js_match input pattern) as [m |]; inversion H; subst.
    + now apply (head_settled _ _ (SingleMatcher pattern p) rest (One m)).
    + apply (head_kept _ _ (SingleMatcher pattern p) (SingleMatcher pattern p) rest);
        auto. rewrite <- Eq. symmetry. apply set_matchers_same.
  - destruct (match ms with [] => js_match input carriageReturn | _ :: _ => None end)
      as [cr |].
    { inversion H; subst.
      now apply (head_kept _ _ (MultiMatcher pattern p ms) (MultiMatcher pattern p (ms ++ [cr])) rest). }
    destruct (js_match input interactive) as [i |].
    { inversion H; subst.
      now apply (head_settled _ _ (MultiMatcher pattern p ms) rest (Many (tl ms))). }
    destruct (js_match input pattern) as [m |]; inversion H; subst.
    + now apply (head_kept _ _ (MultiMatcher pattern p ms) (MultiMatcher pattern p (ms ++ [m])) rest).
    + apply (head_kept _ _ (MultiMatcher pattern p ms) (MultiMatcher pattern p ms) rest);
        auto. rewrite <- Eq. symmetry. apply set_matchers_same.
Qed.

(** With a matcher in the queue [runNextMatcher] does not throw. *)
Lemma runNextMatcher_total :
  forall input st,
    matchers st <> [] -> exists consumed st', runNextMatcher input st = Some (consumed, st').
Proof.
  intros input st H. unfold runNextMatcher.
  destruct (matchers st) as [| [pattern p | pattern p ms] rest]; [congruence | |].
  - destruct (js_match input pattern); eauto.
  - destruct (match ms with [] => js_match input carriageReturn | _ :: _ => None end);
      [eauto |].
    destruct (js_match input interactive); [eauto |].
    destruct (js_match input pattern); eauto.
Qed.

Lemma head_step_consistent :
  forall st st' consumed, head_step st st' consumed -> consistent st -> consistent st'.
Proof.
  intros st st' consumed H Hc. unfold consistent in *.
  destruct H as [m m' rest Hm -> Hr | m rest v Hm ->]; simpl; rewrite Hm in Hc; simpl in Hc.
  - now rewrite Hr.
  - rewrite map_app. simpl. now rewrite <- app_assoc.
Qed.

Lemma head_step_buffer :
  forall st st' consumed, head_step st st' consumed -> outputBuffer st' = outputBuffer st.
Proof. intros st st' consumed [m m' rest _ -> _ | m rest v _ ->]; reflexivity. Qed.

Lemma head_step_written :
  forall st st' consumed, head_step st st' consumed -> written st' = written st.
Proof. intros st st' consumed [m m' rest _ -> _ | m rest v _ ->]; reflexivity. Qed.

(** The loop that drains the backlog, started with a matcher in the queue. *)
Lemma drain_loop_inv :
  forall buffer st,
    matchers st <> [] -> consistent st ->
    exists st',
      drain_loop buffer st = Some st'
      /\ consistent st'
      /\ promises st' = promises st
      /\ written st' = written st
      /\ (outputBuffer st' = [] \/ matchers st' = tl (matchers st)).
Proof.
  induction buffer as [| l rest IH]; intros st Hne Hc; simpl.
  - eexists. split; [reflexivity |]. repeat split; auto.
  - destruct (runNextMatcher_total l (set_outputBuffer rest st) Hne) as [consumed [st1 E]].
    rewrite E. apply runNextMatcher_head in E.
    assert (Hc1 : consistent st1) by (eapply head_step_consistent; eauto).
    destruct E as [m m' q Hm -> Hr | m q v Hm ->].
    + destruct (IH (set_matchers (m' :: q) (set_outputBuffer rest st))) as [st' [E' [Hc' [Hp [Hw Hb]]]]];
        [discriminate | exact Hc1 |].
      exists st'. repeat split; auto. simpl in Hb. simpl in Hm. rewrite Hm. exact Hb.
    + eexists. split; [reflexivity |]. repeat split; auto.
      right. simpl. simpl in Hm. now rewrite Hm.
Qed.

Lemma queue_inv :
  forall mk st,
    (forall p, resolve_of (mk p) = p) ->
    consistent st -> backlog_idle st ->
    exists st',
      queue mk st = Some (promises st, st')
      /\ consistent st' /\ backlog_idle st'
      /\ promises st' = S (promises st)
      /\ written st' = written st.
Proof.
  intros mk st Hmk Hc Hb. unfold queue, drain.
  set (st1 := set_matchers _ _).
  assert (Hc1 : consistent st1).
  { unfold consistent in *. subst st1.
    cbn [settled matchers promises set_matchers set_promises].
    rewrite seq_S, map_app, app_assoc, Hc. cbn [map]. now rewrite Hmk. }
  destruct (drain_loop_inv (outputBuffer st1) st1) as [st' [E [Hc' [Hp [Hw Hd]]]]];
    [subst st1; simpl; now destruct (matchers st) | exact Hc1 |].
  rewrite E. exists st'. repeat split; auto.
  destruct Hd as [Hd | Hd]; [now right |].
  destruct Hb as [Hb | Hb].
  - left. rewrite Hd. subst st1. simpl. now rewrite Hb.
  - right. subst st1. simpl in E. rewrite Hb in E. simpl in E. now inversion E.
Qed.

Lemma matchResponse_inv :
  forall patterns st,
    consistent st -> backlog_idle st ->
    exists st',
      matchResponse patterns st = Some (seq (promises st) (length patterns), st')
      /\ consistent st' /\ backlog_idle st'
      /\ promises st' = length patterns + promises st
      /\ written st' = written st.
Proof.
  induction patterns as [| pattern rest IH]; intros st Hc Hb; simpl.
  - exists st. auto.
  - destruct (queue_inv (SingleMatcher pattern) st) as [st1 [E [Hc1 [Hb1 [Hp1 Hw1]]]]];
      auto.
    rewrite E. destruct (IH st1 Hc1 Hb1) as [st2 [E2 [Hc2 [Hb2 [Hp2 Hw2]]]]].
    rewrite E2, Hp1. exists st2. repeat split; auto; try lia. congruence.
Qed.

Lemma feed_inv :
  forall data st,
    consistent st -> backlog_idle st ->
    exists st',
      feed data st = Some st'
      /\ consistent st' /\ backlog_idle st'
      /\ promises st' = promises st
      /\ written st' = written st.
Proof.
  intros data st Hc Hb. unfold feed.
  destruct (matchers st) as [| m q] eqn:Em.
  - eexists. split; [reflexivity |]. split; [exact Hc |].
    split; [left; exact Em |]. split; reflexivity.
  - destruct (runNextMatcher_total data st) as [consumed [st' E]]; [congruence |].
    rewrite E. exists st'. apply runNextMatcher_head in E.
    split; [reflexivity |]. split; [eapply head_step_consistent; eauto |].
    split.
    + right. rewrite (head_step_buffer _ _ _ E).
      destruct Hb as [Hb | Hb]; [congruence | exact Hb].
    + split; [| eapply head_step_written; eauto].
      destruct E as [? ? ? _ -> _ | ? ? ? _ ->]; reflexivity.
Qed.

(** The invariants hold in every state a session reaches, and no step of
    a session throws. *)
Lemma run_inv :
  forall stripAnsi events st,
    consistent st -> backlog_idle st ->
    exists st', run stripAnsi events st = Some st' /\ consistent st' /\ backlog_idle st'.
Proof.
  intros stripAnsi. induction events as [| e events IH]; intros st Hc Hb; simpl; [eauto |].
  assert (Hstep : exists st1, step stripAnsi e st = Some st1 /\ consistent st1 /\ backlog_idle st1).
  { destruct e as [rawData | patterns | pattern | command args]; simpl.
    - destruct (listening st); [| eauto]. unfold onData.
      destruct (feed_inv (stripAnsi (replaceCursorRight rawData))
                  (set_emitted (emitted st ++ [rawData]) st)) as [st1 [E [? [? _]]]]; eauto.
    - destruct (matchResponse_inv patterns st) as [st1 [E [? [? _]]]]; auto.
      rewrite E. simpl. eauto.
    - unfold matchUntilInteractive.
      destruct (queue_inv (fun p => MultiMatcher pattern p []) st) as [st1 [E [? [? _]]]];
        auto.
      rewrite E. simpl. eauto.
    - eexists. split; [reflexivity |]. split; assumption. }
  destruct Hstep as [st1 [E [Hc1 Hb1]]]. rewrite E. now apply IH.
Qed.

Lemma app_eq_length {A : Type} :
  forall (a c b d : list A), a ++ b = c ++ d -> length a = length c -> a = c /\ b = d.
Proof.
  induction a as [| x a IH]; intros [| y c] b d H Hlen; simpl in *; try discriminate.
  - auto.
  - inversion H; subst. destruct (IH c b d) as [-> ->]; auto.
Qed.

Lemma init_consistent : consistent init.
Proof. reflexivity. Qed.

Lemma init_backlog_idle : backlog_idle init.
Proof. now left. Qed.

(** In a consistent state no promise still to be created is settled, and
    the promise of a waiting matcher is not settled. *)
Lemma consistent_settled_lt :
  forall st p, consistent st -> In p (map fst (settled st)) -> p < promises st.
Proof.
  intros st p Hc Hin. unfold consistent in Hc.
  assert (H : In p (seq 0 (promises st))) by (rewrite <- Hc; apply in_or_app; now left).
  apply in_seq in H. lia.
Qed.

Lemma settled_value_None :
  forall p l, ~ In p (map fst l) -> settled_value p l = None.
Proof.
  induction l as [| [q v] l IH]; intros H; simpl in *; [reflexivity |].
  destruct (Nat.eqb_spec q p) as [-> | _]; [tauto |]. apply IH. tauto.
Qed.

Lemma settled_value_app :
  forall p l v,
    ~ In p (map fst l) -> settled_value p (l ++ [(p, v)]) = Some v.
Proof.
  induction l as [| [q w] l IH]; intros v H; simpl in *.
  - now rewrite Nat.eqb_refl.
  - destruct (Nat.eqb_spec q p) as [-> | _]; [tauto |]. apply IH. tauto.
Qed.

Lemma settled_value_app_other :
  forall p q l v,
    q <> p -> settled_value p (l ++ [(q, v)]) = settled_value p l.
Proof.
  induction l as [| [r w] l IH]; intros v H; simpl.
  - destruct (Nat.eqb_spec q p); [contradiction | reflexivity].
  - destruct (Nat.eqb_spec r p); [reflexivity | now apply IH].
Qed.

End QueueFacts.

(** ** Accumulation until the prompt *)

Section MultiMatcherFacts.

Lemma collect_all :
  forall pattern contents ms,
    Forall2 (fun c m => js_match c pattern = Some m) contents ms ->
    collect pattern contents = ms.
Proof.
  intros pattern contents ms H. induction H as [| c m contents ms Hc _ IH]; simpl.
  - reflexivity.
  - now rewrite Hc, IH.
Qed.

Lemma Forall_firstn {A : Type} (P : A -> Prop) :
  forall (n : nat) (l : list A), Forall P l -> Forall P (firstn n l).
Proof.
  induction n as [| n IH]; intros l H; simpl; [constructor |].
  destruct H; constructor; auto.
Qed.

Lemma set_matchers_twice (q q' : list Matcher) (st : State) :
  set_matchers q (set_matchers q' st) = set_matchers q st.
Proof. reflexivity. Qed.

(** Lines without the prompt marker, given to a multi matcher at the head
    of the queue that has already swallowed the echo, add their matches
    to it and settle nothing. *)
Lemma multi_accumulate :
  forall contents st pattern p ms rest,
    matchers st = MultiMatcher pattern p ms :: rest ->
    ms <> [] ->
    Forall (fun c => js_match c interactive = None) contents ->
    feed_all contents st
    = Some (set_matchers (MultiMatcher pattern p (ms ++ collect pattern contents) :: rest) st).
Proof.
  induction contents as [| c contents IH]; intros st pattern p ms rest Hq Hne Hall.
  - simpl. rewrite app_nil_r, <- Hq. now rewrite set_matchers_same.
  - inversion Hall as [| ? ? Hc Hall']; subst.
    simpl. unfold feed, runNextMatcher. rewrite Hq.
    destruct ms as [| m0 ms]; [congruence |]. rewrite Hc.
    destruct (js_match c pattern) as [m |].
    + rewrite (IH _ pattern p ((m0 :: ms) ++ [m]) rest); simpl; auto.
      * now rewrite <- app_assoc.
      * destruct ms; discriminate.
    + now apply IH.
Qed.

Lemma multi_echo :
  forall st pattern p rest echo cr,
    matchers st = MultiMatcher pattern p [] :: rest ->
    js_match echo carriageReturn = Some cr ->
    feed echo st = Some (set_matchers (MultiMatcher pattern p [cr] :: rest) st).
Proof.
  intros st pattern p rest echo cr Hq Hcr. unfold feed, runNextMatcher.
  now rewrite Hq, Hcr.
Qed.

Lemma multi_prompt :
  forall st pattern p ms rest prompt,
    matchers st = MultiMatcher pattern p ms :: rest ->
    ms <> [] ->
    js_match prompt interactive <> None ->
    feed prompt st = Some (set_matchers rest (call_resolve p (Many (tl ms)) st)).
Proof.
  intros st pattern p ms rest prompt Hq Hne Hp. unfold feed, runNextMatcher. rewrite Hq.
  destruct ms as [| m0 ms]; [congruence |].
  destruct (js_match prompt interactive); [reflexivity | congruence].
Qed.

Lemma feed_all_app :
  forall a b st,
    feed_all (a ++ b) st
    = match feed_all a st with Some st' => feed_all b st' | None => None end.
Proof.
  induction a as [| x a IH]; intros b st; simpl; [reflexivity |].
  destruct (feed x st); [apply IH | reflexivity].
Qed.

(** The whole exchange, for any lines between the echo and the prompt. *)
Lemma multi_exchange :
  forall st pattern p rest echo cr contents prompt,
    matchers st = MultiMatcher pattern p [] :: rest ->
    js_match echo carriageReturn = Some cr ->
    Forall (fun c => js_match c interactive = None) contents ->
    js_match prompt interactive <> None ->
    feed_all (echo :: contents ++ [prompt]) st
    = Some (set_matchers rest (call_resolve p (Many (collect pattern contents)) st)).
Proof.
  intros st pattern p rest echo cr contents prompt Hq Hcr Hall Hp.
  simpl. rewrite (multi_echo _ _ _ _ _ _ Hq Hcr), feed_all_app.
  rewrite (multi_accumulate contents _ pattern p [cr] rest); auto; [| discriminate].
  cbn [feed_all app].
  rewrite (multi_prompt _ pattern p (cr :: collect pattern contents) rest prompt);
    [reflexivity | reflexivity | discriminate | exact Hp].
Qed.

End MultiMatcherFacts.

(** C5. A multi matcher at the head of the queue is given the echoed
    command line (a line with a carriage return), then N lines that match
    its pattern and do not hold the prompt marker, then a line with the
    prompt marker. It is still waiting, with nothing settled, after the
    echo and any number of the content lines; the prompt line settles its
    promise with exactly the N matches of the content lines, in order, the
    echo left out, and removes it from the queue. *)
Theorem matchUntilInteractive_accumulates :
  forall (st : State) (pattern : regex) (p : nat) (rest : list Matcher)
         (echo : string) (cr : RegExpMatchArray)
         (contents : list string) (ms : list RegExpMatchArray) (prompt : string),
    matchers st = MultiMatcher pattern p [] :: rest ->
    js_match echo carriageReturn = Some cr ->
    Forall (fun c => js_match c interactive = None) contents ->
    Forall2 (fun c m => js_match c pattern = Some m) contents ms ->
    js_match prompt interactive <> None ->
    (forall j,
        exists st_j,
          feed_all (echo :: firstn j contents) st = Some st_j
          /\ settled st_j = settled st
          /\ matchers st_j = MultiMatcher pattern p (cr :: firstn j ms) :: rest)
    /\ exists st',
         feed_all (echo :: contents ++ [prompt]) st = Some st'
         /\ settled st' = settled st ++ [(p, Many ms)]
         /\ length ms = length contents
         /\ matchers st' = rest.
Proof.
  intros st pattern p rest echo cr contents ms prompt Hq Hcr Hall Hms Hp. split.
  - intros j. simpl. rewrite (multi_echo _ _ _ _ _ _ Hq Hcr).
    rewrite (multi_accumulate (firstn j contents) _ pattern p [cr] rest);
      [| reflexivity | discriminate | apply Forall_firstn; exact Hall].
    eexists. split; [reflexivity |]. split; [reflexivity |]. simpl.
    rewrite (collect_all pattern (firstn j contents) (firstn j ms)); [reflexivity |].
    clear -Hms. revert j. induction Hms as [| c m cs ms' Hc _ IH]; intros [| j]; simpl;
      constructor; auto.
  - rewrite (multi_exchange _ _ _ _ _ _ _ _ Hq Hcr Hall Hp).
    rewrite (collect_all _ _ _ Hms).
    eexists. split; [reflexivity |]. split; [reflexivity |].
    split; [symmetry; eapply Forall2_length; eauto | reflexivity].
Qed.

(** ** The output backlog *)

Section BacklogFacts.

Lemma runNextMatcher_buffer :
  forall b input st,
    runNextMatcher input (set_outputBuffer b st)
    = match runNextMatcher input st with
      | Some (consumed, st') => Some (consumed, set_outputBuffer b st')
      | None => None
      end.
Proof.
  intros b input st. unfold runNextMatcher. simpl.
  destruct (matchers st) as [| [pattern p | pattern p ms] rest]; [reflexivity | |].
  - destruct (js_match input pattern); reflexivity.
  - destruct (match ms with [] => js_match input carriageReturn | _ :: _ => None end);
      [reflexivity |].
    destruct (js_match input interactive); [reflexivity |].
    destruct (js_match input pattern); reflexivity.
Qed.

Lemma head_step_tail :
  forall st st' consumed,
    head_step st st' consumed ->
    if consumed then matchers st' = tl (matchers st)
    else matchers st' <> [] /\ tl (matchers st') = tl (matchers st).
Proof.
  intros st st' consumed [m m' rest Hq -> _ | m rest v Hq ->]; simpl; rewrite Hq; simpl.
  - split; [discriminate | reflexivity].
  - reflexivity.
Qed.

(** Draining gives the lines of the backlog, oldest first, to the head
    of the queue as the listener would, up to the line that settles it;
    the lines after that one stay in the backlog. *)
Lemma drain_loop_spec :
  forall lines st,
    matchers st <> [] ->
    exists k st1,
      drain_loop lines st = Some (set_outputBuffer (skipn k lines) st1)
      /\ feed_all (firstn k lines) (set_outputBuffer [] st) = Some st1
      /\ outputBuffer st1 = []
      /\ (k = length lines \/ matchers st1 = tl (matchers st)).
Proof.
  induction lines as [| l rest IH]; intros st Hne.
  - exists 0, (set_outputBuffer [] st). simpl. auto.
  - destruct (runNextMatcher_total l st Hne) as [consumed [st' E]].
    pose proof (head_step_tail _ _ _ (runNextMatcher_head _ _ _ _ E)) as Ht.
    assert (Efeed : feed l (set_outputBuffer [] st) = Some (set_outputBuffer [] st')).
    { unfold feed. rewrite runNextMatcher_buffer, E. simpl.
      destruct (matchers st); [congruence | reflexivity]. }
    simpl drain_loop. rewrite runNextMatcher_buffer, E.
    destruct consumed.
    + exists 1, (set_outputBuffer [] st'). simpl firstn. simpl skipn.
      cbn [feed_all]. rewrite Efeed. auto.
    + destruct Ht as [Hne' Ht].
      destruct (IH (set_outputBuffer rest st') Hne') as [k [st1 [Ed [Ef [Hb Hk]]]]].
      exists (S k), st1. simpl firstn. simpl skipn. cbn [feed_all]. rewrite Efeed.
      split; [exact Ed |]. split; [exact Ef |]. split; [exact Hb |].
      destruct Hk as [-> | Hk]; [now left | right]. simpl in Hk. congruence.
Qed.

End BacklogFacts.

(** C6. A line received while no matcher waits is put at the end of the
    backlog. When a matcher is then registered, the lines of the backlog
    are given to it oldest first, exactly as the listener would have given
    them to it had they arrived after it, up to the line that settles it;
    the lines behind that one stay in the backlog, in order, for the
    matchers registered next. And in every state a session reaches the
    backlog is empty when a matcher waits. *)
Theorem backlog_in_arrival_order :
  (forall (data : string) (st : State),
      matchers st = [] ->
      feed data st = Some (set_outputBuffer (outputBuffer st ++ [data]) st))
  /\ (forall (mk : nat -> Matcher) (st : State),
         matchers st = [] ->
         exists k st1,
           queue mk st = Some (promises st, set_outputBuffer (skipn k (outputBuffer st)) st1)
           /\ feed_all (firstn k (outputBuffer st)) (registered mk st) = Some st1
           /\ outputBuffer st1 = []
           /\ (k = length (outputBuffer st) \/ matchers st1 = []))
  /\ (forall (stripAnsi : string -> string) (events : list Event) (st : State),
         run stripAnsi events init = Some st ->
         matchers st <> [] -> outputBuffer st = []).
Proof.
  split; [| split].
  - intros data st Hq. unfold feed. now rewrite Hq.
  - intros mk st Hq. unfold queue, drain.
    cbn [matchers outputBuffer promises set_matchers set_promises]. rewrite Hq.
    cbn [app].
    destruct (drain_loop_spec (outputBuffer st)
                (set_matchers [mk (promises st)] (set_promises (S (promises st)) st)))
      as [k [st1 [Ed [Ef [Hb Hk]]]]]; [discriminate |].
    rewrite Ed. exists k, st1. auto.
  - intros stripAnsi events st E Hne.
    destruct (run_inv stripAnsi events init init_consistent init_backlog_idle)
      as [st' [E' [_ Hb]]].
    rewrite E in E'. inversion E'; subst st'. destruct Hb; [contradiction | assumption].
Qed.

(** ** Reading a register *)

Section ReadVariableFacts.

(** The first alternative matches at the start of a text of [0-9A-F]
    only, and then up to its end. *)
Lemma exec_anchored :
  forall pos s cs k,
    exec anchored pos s cs k
    = if (pos =? 0)%nat && is_hex_text s then k (pos + String.length s) "" cs else None.
Proof.
  intros pos s cs k. unfold anchored, Plus. rewrite exec_Seq. cbn [exec].
  destruct (pos =? 0)%nat; [| reflexivity]. cbn [andb].
  destruct s as [| c s]; [reflexivity |].
  cbn [is_hex_text all_chars]. destruct (upper_hex c); [| reflexivity]. cbn [andb].
  destruct (all_chars upper_hex s) eqn:Hall.
  - etransitivity;
      [exact (iter_class_eol upper_hex k s _ (S pos) cs Hall (le_n _)) |].
    f_equal. simpl. lia.
  - match goal with
    | |- ?e = None => destruct e as [res |] eqn:E; [| reflexivity]
    end.
    apply (iter_class_eol_inv upper_hex k) in E. congruence.
Qed.

Lemma js_match_input :
  forall s r m, js_match s r = Some m -> input m = s.
Proof.
  intros s r m H. unfold js_match in H.
  destruct (search r 0 s) as [[[b e] cs] |]; inversion H; reflexivity.
Qed.

(** On a text of [0-9A-F] the pattern of [readVariable] captures the
    whole text in [data]. *)
Lemma readPattern_hex :
  forall s,
    is_hex_text s = true ->
    js_match s readPattern
    = Some {| matched := s; index := 0; input := s; groups := [("data", s)] |}.
Proof.
  intros s H. unfold js_match.
  assert (E : search readPattern 0 s = Some (0, String.length s, [("data", s)])).
  { destruct s as [| c s]; [discriminate |].
    unfold readPattern. cbn [search]. rewrite exec_Alt, exec_Named.
    rewrite exec_anchored. rewrite H. cbn [Nat.eqb andb accept].
    rewrite Nat.sub_0_r, Nat.add_0_l, substring_all. reflexivity. }
  rewrite E. now rewrite Nat.sub_0_r, substring_all.
Qed.

(** On any other text a match binds no group. *)
Lemma search_readPattern_other :
  forall s pos b e cs,
    search readPattern pos s = Some (b, e, cs) ->
    (pos =? 0)%nat && is_hex_text s = false ->
    cs = [].
Proof.
  induction s as [| c s IH]; intros pos b e cs H Hno;
    unfold readPattern in H; cbn [search] in H; rewrite exec_Alt, exec_Named in H;
    rewrite exec_anchored, Hno in H; cbn [exec] in H.
  - discriminate.
  - destruct (Ascii.eqb CR c).
    + unfold accept in H. now inversion H.
    + apply IH in H; [exact H |]. reflexivity.
Qed.

Lemma readPattern_other :
  forall s m,
    is_hex_text s = false -> js_match s readPattern = Some m -> group m "data" = None.
Proof.
  intros s m Hno H. unfold js_match in H.
  destruct (search readPattern 0 s) as [[[b e] cs] |] eqn:E; [| discriminate].
  inversion H; subst m. unfold group. simpl.
  apply search_readPattern_other in E; [now subst cs | now rewrite Hno].
Qed.

(** A text with a carriage return matches the pattern. *)
Lemma search_readPattern_cr :
  forall s pos,
    search carriageReturn pos s <> None -> search readPattern pos s <> None.
Proof.
  induction s as [| c s IH]; intros pos H;
    unfold carriageReturn in H; cbn [search exec] in H.
  - congruence.
  - unfold readPattern. cbn [search]. rewrite exec_Alt.
    destruct (exec (Named "data" _) pos (String c s) [] accept) as [[e1 cs1] |];
      [discriminate |].
    cbn [exec]. destruct (Ascii.eqb CR c); [discriminate |]. now apply IH.
Qed.

Lemma readPattern_cr :
  forall s, js_match s carriageReturn <> None -> js_match s readPattern <> None.
Proof.
  intros s H. unfold js_match in *.
  pose proof (search_readPattern_cr s 0) as Hs.
  destruct (search carriageReturn 0 s) as [[[b e] cs] |]; [| congruence].
  destruct (search readPattern 0 s) as [[[b' e'] cs'] |]; [discriminate |].
  exfalso. apply Hs; [discriminate | reflexivity].
Qed.

(** Lines a single matcher at the head of the queue does not match are
    dropped; the first line it matches settles it. *)
Lemma single_skip :
  forall chunks st pattern p rest,
    matchers st = SingleMatcher pattern p :: rest ->
    Forall (fun c => js_match c pattern = None) chunks ->
    feed_all chunks st = Some st.
Proof.
  induction chunks as [| c chunks IH]; intros st pattern p rest Hq Hall; [reflexivity |].
  inversion Hall as [| ? ? Hc Hall']; subst. simpl.
  unfold feed, runNextMatcher. rewrite Hq, Hc. eapply IH; eauto.
Qed.

Lemma single_hit :
  forall c m st pattern p rest,
    matchers st = SingleMatcher pattern p :: rest ->
    js_match c pattern = Some m ->
    feed c st = Some (set_matchers rest (call_resolve p (One m) st)).
Proof.
  intros c m st pattern p rest Hq Hc. unfold feed, runNextMatcher. now rewrite Hq, Hc.
Qed.

Lemma single_block :
  forall skipped c m st pattern p rest,
    matchers st = SingleMatcher pattern p :: rest ->
    Forall (fun c => js_match c pattern = None) skipped ->
    js_match c pattern = Some m ->
    feed_all (skipped ++ [c]) st = Some (set_matchers rest (call_resolve p (One m) st)).
Proof.
  intros skipped c m st pattern p rest Hq Hall Hc.
  rewrite feed_all_app, (single_skip _ _ _ _ _ Hq Hall). simpl.
  now rewrite (single_hit _ _ _ _ _ _ Hq Hc).
Qed.

End ReadVariableFacts.

(** [readVariable] writes the name of the register once. The first
    chunk with a carriage return settles its first expectation; of the
    chunks after it, the first that is a text of [0-9A-F] or holds a
    carriage return settles the second. When that chunk is a text of
    [0-9A-F], and nothing else, the promise of [readVariable] is fulfilled
    with it; otherwise it is rejected with the chunk as it was received,
    and nothing more is written to the device. *)
Lemma readVariable_settles :
  forall (st : State) (register : string)
         (skipped1 : list string) (echo : string)
         (skipped2 : list string) (response : string),
    consistent st -> matchers st = [] -> outputBuffer st = [] ->
    Forall (fun c => js_match c carriageReturn = None) skipped1 ->
    js_match echo carriageReturn <> None ->
    Forall (fun c => js_match c readPattern = None) skipped2 ->
    is_hex_text response = true \/ js_match response carriageReturn <> None ->
    exists ps st1 st2,
      readVariable_send register st = Some (ps, st1)
      /\ written st1 = written st ++ [(register ++ CRLF)%string]
      /\ feed_all (skipped1 ++ echo :: skipped2 ++ [response]) st1 = Some st2
      /\ written st2 = written st1
      /\ readVariable_await ps st2
         = Some (if is_hex_text response then Returned response else Thrown response).
Proof.
  intros st register skipped1 echo skipped2 response Hc Hq Hb Hs1 Hecho Hs2 Hresp.
  destruct (js_match echo carriageReturn) as [m1 |] eqn:E1; [clear Hecho | congruence].
  assert (E2 : exists m2, js_match response readPattern = Some m2
                          /\ readVariable_return m2
                             = if is_hex_text response then Returned response
                               else Thrown response).
  { destruct (is_hex_text response) eqn:Hhex.
    - rewrite (readPattern_hex _ Hhex). eexists. split; [reflexivity |].
      unfold readVariable_return, group. simpl.
      destruct response; [discriminate | reflexivity].
    - destruct Hresp as [Hresp | Hresp]; [discriminate |].
      apply readPattern_cr in Hresp.
      destruct (js_match response readPattern) as [m2 |] eqn:E; [| congruence].
      exists m2. split; [reflexivity |]. unfold readVariable_return.
      rewrite (readPattern_other _ _ Hhex E). f_equal. eapply js_match_input; eauto. }
  destruct E2 as [m2 [E2 Hret]].
  unfold readVariable_send. cbn [matchResponse]. unfold queue, drain.
  cbn [matchers outputBuffer promises set_matchers set_promises set_outputBuffer
       sendCommand set_written].
  rewrite Hq, Hb. cbn [app drain_loop].
  cbn [matchers outputBuffer promises set_matchers set_promises set_outputBuffer].
  cbn [app drain_loop].
  eexists. eexists. eexists. split; [reflexivity |].
  cbn [written set_outputBuffer set_matchers set_promises set_written].
  split; [reflexivity |].
  replace (skipped1 ++ echo :: skipped2 ++ [response])
    with ((skipped1 ++ [echo]) ++ (skipped2 ++ [response]))
    by (rewrite <- app_assoc; reflexivity).
  rewrite feed_all_app.
  erewrite single_block; [| reflexivity | exact Hs1 | exact E1].
  erewrite single_block; [| reflexivity | exact Hs2 | exact E2].
  split; [reflexivity |]. split; [reflexivity |].
  unfold readVariable_await, await_all.
  cbn [settled set_matchers call_resolve set_settled set_outputBuffer set_promises].
  assert (Hn0 : ~ In (promises st) (map fst (settled st))).
  { intros Hin. apply (consistent_settled_lt st _ Hc) in Hin. lia. }
  assert (Hn1 : ~ In (S (promises st)) (map fst (settled st))).
  { intros Hin. apply (consistent_settled_lt st _ Hc) in Hin. lia. }
  rewrite (settled_value_app_other (promises st)) by lia.
  rewrite (settled_value_app _ _ _ Hn0).
  rewrite settled_value_app.
  - now rewrite Hret.
  - rewrite map_app. intros Hin. apply in_app_or in Hin. simpl in Hin.
    destruct Hin as [Hin | [Hin | []]]; [tauto | lia].
Qed.

(** ** Chunks and lines *)

Section ChunkFacts.

Lemma set_outputBuffer_same (st : State) :
  outputBuffer st = [] -> set_outputBuffer [] st = st.
Proof. destruct st; simpl; intros ->; reflexivity. Qed.

(** With an empty backlog [matchResponse] only queues its matchers. *)
Lemma matchResponse_queues :
  forall patterns st,
    outputBuffer st = [] ->
    matchResponse patterns st
    = Some (seq (promises st) (length patterns),
            set_promises (length patterns + promises st)
              (set_matchers (matchers st ++ singles patterns (promises st)) st)).
Proof.
  induction patterns as [| pattern rest IH]; intros st Hb.
  - simpl. rewrite app_nil_r. now destruct st.
  - cbn [matchResponse]. unfold queue, drain.
    cbn [matchers outputBuffer promises set_matchers set_promises]. rewrite Hb.
    cbn [drain_loop]. rewrite IH by reflexivity.
    cbn [matchers outputBuffer promises set_matchers set_promises set_outputBuffer
         length seq singles].
    rewrite <- app_assoc. cbn [app].
    replace (length rest + S (promises st)) with (S (length rest) + promises st) by lia.
    destruct st; simpl in *; subst; reflexivity.
Qed.

(** Lines given one by one to a queue of single matchers, the i-th line
    matching the i-th pattern, settle the promises in order. *)
Lemma singles_settle :
  forall patterns served st p,
    matchers st = singles patterns p ->
    Forall2 (fun pattern lm => js_match (fst lm) pattern = Some (snd lm)) patterns served ->
    exists st',
      feed_all (map fst served) st = Some st'
      /\ matchers st' = []
      /\ settled st'
         = settled st ++ combine (seq p (length patterns)) (map (fun lm => One (snd lm)) served).
Proof.
  induction patterns as [| pattern rest IH]; intros served st p Hq H;
    inversion H as [| ? [l m] ? served' Hm H']; subst.
  - exists st. simpl. now rewrite app_nil_r.
  - simpl in Hq, Hm. cbn [map fst feed_all].
    rewrite (single_hit _ _ _ _ _ _ Hq Hm).
    destruct (IH served' (set_matchers (singles rest (S p)) (call_resolve p (One m) st)) (S p))
      as [st' [E [Hq' Hs']]]; [reflexivity | exact H' |].
    exists st'. split; [exact E |]. split; [exact Hq' |].
    rewrite Hs'. simpl. now rewrite <- app_assoc.
Qed.

End ChunkFacts.

(** C1. [initialize] registers the expectations [/A =/] and the prompt,
    then the same sanitized text arrives in three ways. Given line by line it
    settles both promises, in order. Given in one chunk it settles the
    first promise only: the chunk is tested once, as a whole, against the
    head of the queue, and the second expectation waits on. Cut in the
    middle of the first line it settles nothing: no chunk holds the text
    of the first pattern, and the prompt is tested against the first
    expectation and dropped. The result depends on where the chunk
    boundaries fall. *)
Theorem chunk_boundaries_change_resolution :
  String.concat "" by_lines = status_stream
  /\ String.concat "" in_one_chunk = status_stream
  /\ String.concat "" cut_mid_line = status_stream
  /\ exists st0,
       initialize_send init = Some ([0; 1], st0)
       /\ (exists st1,
              feed_all by_lines st0 = Some st1
              /\ map fst (settled st1) = [0; 1]
              /\ matchers st1 = [])
       /\ (exists st2,
              feed_all in_one_chunk st0 = Some st2
              /\ map fst (settled st2) = [0]
              /\ matchers st2 = [SingleMatcher interactive 1])
       /\ (exists st3,
              feed_all cut_mid_line st0 = Some st3
              /\ settled st3 = []
              /\ matchers st3 = [SingleMatcher (Lit "A =") 0; SingleMatcher interactive 1]).
Proof.
  split; [reflexivity |]. split; [reflexivity |]. split; [reflexivity |].
  eexists. split; [vm_compute; reflexivity |].
  split; [| split]; eexists; (split; [vm_compute; reflexivity |]); split; reflexivity.
Qed.

(** When every chunk is one line, the i-th line matching the i-th of the
    patterns given to [matchResponse], the promises are settled in the
    order of the patterns, each with the match of its own line. *)
Theorem lines_settle_in_order :
  forall (st : State) (patterns : list regex) (served : list (string * RegExpMatchArray)),
    matchers st = [] -> outputBuffer st = [] ->
    Forall2 (fun pattern lm => js_match (fst lm) pattern = Some (snd lm)) patterns served ->
    exists st1 st2,
      matchResponse patterns st = Some (seq (promises st) (length patterns), st1)
      /\ feed_all (map fst served) st1 = Some st2
      /\ matchers st2 = []
      /\ settled st2
         = settled st
           ++ combine (seq (promises st) (length patterns))
                (map (fun lm => One (snd lm)) served).
Proof.
  intros st patterns served Hq Hb H.
  rewrite (matchResponse_queues patterns st Hb), Hq. cbn [app].
  destruct (singles_settle patterns served
              (set_promises (length patterns + promises st)
                 (set_matchers (singles patterns (promises st)) st)) (promises st))
    as [st2 [E [Hq2 Hs2]]]; [reflexivity | exact H |].
  eexists. exists st2. split; [reflexivity |]. split; [exact E |].
  split; [exact Hq2 | exact Hs2].
Qed.

(** ** Every expectation is settled, once and in order *)

Section ServedFacts.

Lemma serves_settle :
  forall m block v st rest,
    matchers st = m :: rest ->
    serves m block v ->
    feed_all block st = Some (set_matchers rest (call_resolve (resolve_of m) v st)).
Proof.
  intros m block v st rest Hq H.
  destruct H as [pattern p skipped c m Hs Hc
                | pattern p echo cr contents prompt Hcr Hall Hp
                | pattern p m0 ms contents prompt Hall Hp].
  - exact (single_block _ _ _ _ _ _ _ Hq Hs Hc).
  - exact (multi_exchange _ _ _ _ _ _ _ _ Hq Hcr Hall Hp).
  - rewrite feed_all_app.
    rewrite (multi_accumulate contents _ pattern p (m0 :: ms) rest Hq); [| discriminate | exact Hall].
    cbn [feed_all].
    rewrite (multi_prompt _ pattern p ((m0 :: ms) ++ collect pattern contents) rest prompt);
      [reflexivity | reflexivity | discriminate | exact Hp].
Qed.

Lemma served_settle :
  forall q blocks vs,
    served q blocks vs ->
    forall st,
      matchers st = q ->
      exists st',
        feed_all (concat blocks) st = Some st'
        /\ matchers st' = []
        /\ promises st' = promises st
        /\ settled st' = settled st ++ combine (map resolve_of q) vs.
Proof.
  intros q blocks vs H.
  induction H as [| m q block blocks v vs Hm _ IH]; intros st Hq.
  - exists st. simpl. now rewrite app_nil_r.
  - cbn [concat]. rewrite feed_all_app, (serves_settle _ _ _ _ _ Hq Hm).
    destruct (IH (set_matchers q (call_resolve (resolve_of m) v st)) eq_refl)
      as [st' [E [Hq' [Hp' Hs']]]].
    exists st'. split; [exact E |]. split; [exact Hq' |]. split; [exact Hp' |].
    rewrite Hs'. simpl. now rewrite <- app_assoc.
Qed.

Lemma served_length :
  forall q blocks vs, served q blocks vs -> length vs = length q.
Proof. intros q blocks vs H. induction H; simpl; congruence. Qed.

Lemma map_fst_combine {A B : Type} :
  forall (l : list A) (l' : list B), length l' = length l -> map fst (combine l l') = l.
Proof.
  induction l as [| x l IH]; intros [| y l'] H; simpl in *; try discriminate; [reflexivity |].
  f_equal. apply IH. lia.
Qed.

(** A text that ends a line holds a carriage return and is not a text of
    [0-9A-F]. *)
Lemma search_carriageReturn (pre post : string) (pos : nat) :
  search carriageReturn pos (pre ++ String CR post) <> None.
Proof.
  revert pos. induction pre as [| c pre IH]; intros pos; cbn [append search exec carriageReturn].
  - rewrite Ascii.eqb_refl. discriminate.
  - destruct (Ascii.eqb CR c); [discriminate | apply IH].
Qed.

Lemma line_has_carriageReturn (text : string) :
  js_match (text ++ CRLF) carriageReturn <> None.
Proof.
  unfold js_match. pose proof (search_carriageReturn text (String LF "") 0) as H.
  unfold CRLF. destruct (search carriageReturn 0 _) as [[[b e] cs] |]; congruence.
Qed.

Lemma line_not_hex_text (text : string) : is_hex_text (text ++ CRLF) = false.
Proof.
  assert (H : all_chars upper_hex (text ++ CRLF) = false).
  { induction text as [| c text IH]; [reflexivity |].
    simpl. rewrite IH. apply andb_false_r. }
  destruct text as [| c text]; [reflexivity | exact H].
Qed.

(** A text that is not one of [0-9A-F] and holds no carriage return does
    not match the pattern of [readVariable]. *)
Lemma search_readPattern_none :
  forall s pos,
    search carriageReturn pos s = None ->
    (pos =? 0)%nat && is_hex_text s = false ->
    search readPattern pos s = None.
Proof.
  induction s as [| c s IH]; intros pos H Hno;
    unfold carriageReturn in H; cbn [search exec] in H;
    unfold readPattern; cbn [search]; rewrite exec_Alt, exec_Named;
    rewrite exec_anchored, Hno; cbn [exec].
  - reflexivity.
  - destruct (Ascii.eqb CR c); [discriminate |]. apply IH; [exact H | reflexivity].
Qed.

Lemma readPattern_none (s : string) :
  is_hex_text s = false -> js_match s carriageReturn = None -> js_match s readPattern = None.
Proof.
  intros Hno H. unfold js_match in *.
  rewrite search_readPattern_none; [reflexivity | | now rewrite Hno].
  destruct (search carriageReturn 0 s) as [[[b e] cs] |]; [discriminate | reflexivity].
Qed.

End ServedFacts.

(** C4. In every state a session reaches (any sequence of chunks received,
    of calls of [matchResponse] and [matchUntilInteractive], and of
    commands sent) the promises settled so far are the [k] first created,
    in the order of their creation, each once, and the waiting matchers are
    those of the promises created after them, in that order. A call of
    [runNextMatcher] tests the head of the queue alone: it leaves the rest
    of the queue as it is and settles, at most, the promise of the head.
    And every waiting expectation is settled: when the lines that follow
    serve the waiting matchers one after the other, in the order of the
    queue, they empty the queue and settle the promises of the matchers in
    that order, each with the value of its own lines, so that every promise
    created has then been settled exactly once, in the order of creation. *)
Theorem matcher_queue_fifo :
  forall (stripAnsi : string -> string) (events : list Event),
    exists st k,
      run stripAnsi events init = Some st
      /\ map fst (settled st) = seq 0 k
      /\ map resolve_of (matchers st) = seq k (promises st - k)
      /\ (forall input consumed st',
             runNextMatcher input st = Some (consumed, st') ->
             exists m rest,
               matchers st = m :: rest
               /\ tl (matchers st') = (if consumed then tl rest else rest)
               /\ (settled st' = settled st
                   \/ exists v, matchers st' = rest
                                /\ settled st' = settled st ++ [(resolve_of m, v)]))
      /\ (forall (blocks : list (list string)) (vs : list Resolution),
             served (matchers st) blocks vs ->
             exists st',
               feed_all (concat blocks) st = Some st'
               /\ matchers st' = []
               /\ settled st' = settled st ++ combine (seq k (promises st - k)) vs
               /\ map fst (settled st') = seq 0 (promises st')
               /\ promises st' = promises st).
Proof.
  intros stripAnsi events.
  destruct (run_inv stripAnsi events init init_consistent init_backlog_idle)
    as [st [E [Hc _]]].
  exists st, (length (settled st)). split; [exact E |].
  unfold consistent in Hc.
  assert (Hlen : length (settled st) <= promises st).
  { apply (f_equal (@length nat)) in Hc.
    rewrite length_app, !length_map, length_seq in Hc. lia. }
  pose proof Hc as Hall.
  replace (promises st) with (length (settled st) + (promises st - length (settled st)))
    in Hc by lia.
  rewrite seq_app in Hc. apply app_eq_length in Hc;
    [| now rewrite length_map, length_seq].
  destruct Hc as [Hs Hm]. cbn [Nat.add] in Hm.
  split; [exact Hs |]. split; [exact Hm |]. split.
  - intros input consumed st' H. apply runNextMatcher_head in H.
    destruct H as [m m' rest Hq -> Hr | m rest v Hq ->]; exists m, rest; simpl.
    + split; [exact Hq |]. split; [reflexivity | now left].
    + split; [exact Hq |]. split; [reflexivity | right; eauto].
  - intros blocks vs H.
    destruct (served_settle _ _ _ H st eq_refl) as [st' [E' [Hq' [Hp' Hs']]]].
    exists st'. split; [exact E' |]. split; [exact Hq' |].
    rewrite <- Hm. split; [exact Hs' |]. split; [| exact Hp'].
    rewrite Hs', Hp', map_app, map_fst_combine.
    + exact Hall.
    + rewrite (served_length _ _ _ H). now rewrite length_map.
Qed.

(** A session that registers the expectation of a status line and then
    that of a list of breakpoints, and the lines that serve them: both
    promises are settled, in the order of registration. *)
Lemma matcher_queue_fifo_witness :
  exists st st',
    run (fun s => s)
      [SendCommand "brl" []; MatchResponse [Lit "A ="];
       MatchUntilInteractive breakpointPattern] init = Some st
    /\ feed_all [("brl" ++ CRLF)%string; ("A =00" ++ CRLF)%string;
                 ("brl" ++ CRLF)%string; "8003"; "> "] st = Some st'
    /\ matchers st' = []
    /\ map fst (settled st') = [0; 1].
Proof.
  destruct (matcher_queue_fifo (fun s => s)
              [SendCommand "brl" []; MatchResponse [Lit "A ="];
               MatchUntilInteractive breakpointPattern])
    as [st [k [E [_ [_ [_ H]]]]]].
  exists st.
  destruct (H [ [("brl" ++ CRLF)%string; ("A =00" ++ CRLF)%string];
                [("brl" ++ CRLF)%string; "8003"; "> "] ]
              [ One {| matched := "A ="; index := 0; input := ("A =00" ++ CRLF)%string;
                       groups := [] |};
                Many (collect breakpointPattern ["8003"]) ])
    as [st' [E' [Hq' [_ [Hs' Hp']]]]].
  - pose proof E as E0. vm_compute in E0. injection E0 as <-.
    apply served_cons; [| apply served_cons; [| apply served_nil]].
    + apply (serves_single (Lit "A =") 0 [("brl" ++ CRLF)%string] ("A =00" ++ CRLF)%string).
      * repeat constructor.
      * vm_compute. reflexivity.
    + apply (serves_multi breakpointPattern 1 ("brl" ++ CRLF)%string
               {| matched := String CR ""; index := 3; input := ("brl" ++ CRLF)%string;
                  groups := [] |} ["8003"] "> ").
      * vm_compute. reflexivity.
      * repeat constructor.
      * vm_compute. discriminate.
  - exists st'. split; [exact E |]. split; [exact E' |]. split; [exact Hq' |].
    rewrite Hs', Hp'. vm_compute in E. injection E as <-. reflexivity.
Defined.

(** C7. A register that holds a value: [readVariable] writes its name and
    awaits the echo and the response. When the device sends the value as a
    line, as it sends the echo (the digits, then CR and LF), the data
    alternative of the pattern, anchored at both ends of the chunk, does
    not match; its other alternative finds the carriage return, and the
    call is rejected with the value line as if it were an error message.
    The value is returned only when the chunk holds the digits and nothing
    else. And an error message received without a carriage return matches
    neither alternative: the call does not fail, it waits on. *)
Theorem readVariable_value_line_is_thrown :
  forall (st : State) (register value error : string),
    consistent st -> matchers st = [] -> outputBuffer st = [] ->
    is_hex_text value = true ->
    is_hex_text error = false -> js_match error carriageReturn = None ->
    exists ps st1,
      readVariable_send register st = Some (ps, st1)
      /\ written st1 = written st ++ [(register ++ CRLF)%string]
      /\ (exists st2,
             feed_all [(register ++ CRLF)%string; (value ++ CRLF)%string] st1 = Some st2
             /\ readVariable_await ps st2 = Some (Thrown (value ++ CRLF)%string))
      /\ (exists st2,
             feed_all [(register ++ CRLF)%string; value] st1 = Some st2
             /\ readVariable_await ps st2 = Some (Returned value))
      /\ (exists st2,
             feed_all [(register ++ CRLF)%string; error] st1 = Some st2
             /\ readVariable_await ps st2 = None
             /\ map resolve_of (matchers st2) = [S (promises st)]
             /\ written st2 = written st1).
Proof.
  intros st register value error Hc Hq Hb Hhex Herr Hnocr.
  destruct (readVariable_settles st register [] (register ++ CRLF)%string []
              (value ++ CRLF)%string Hc Hq Hb (Forall_nil _)
              (line_has_carriageReturn register) (Forall_nil _)
              (or_intror (line_has_carriageReturn value)))
    as [ps [st1 [st2 [Esend [Hw [E2 [_ Hthrown]]]]]]].
  destruct (readVariable_settles st register [] (register ++ CRLF)%string []
              value Hc Hq Hb (Forall_nil _)
              (line_has_carriageReturn register) (Forall_nil _) (or_introl Hhex))
    as [ps' [st1' [st3 [Esend' [_ [E3 [_ Hreturned]]]]]]].
  rewrite Esend in Esend'. injection Esend' as <- <-.
  rewrite line_not_hex_text in Hthrown. rewrite Hhex in Hreturned.
  exists ps, st1. split; [exact Esend |]. split; [exact Hw |].
  split; [exists st2; split; assumption |].
  split; [exists st3; split; assumption |].
  clear E2 E3 Hthrown Hreturned st2 st3.
  unfold readVariable_send in Esend.
  rewrite matchResponse_queues in Esend by exact Hb.
  cbn [matchers sendCommand set_written] in Esend. rewrite Hq in Esend.
  cbn [app singles length promises set_written sendCommand Nat.add seq] in Esend.
  injection Esend as <- <-.
  destruct (js_match (register ++ CRLF) carriageReturn) as [m1 |] eqn:E1;
    [| exfalso; revert E1; apply line_has_carriageReturn].
  cbn [feed_all]. erewrite single_hit; [| reflexivity | exact E1].
  unfold feed at 1, runNextMatcher.
  cbn [matchers set_matchers call_resolve set_settled set_promises].
  rewrite (readPattern_none error Herr Hnocr).
  eexists. split; [reflexivity |].
  split; [| split; reflexivity].
  unfold readVariable_await, await_all.
  cbn [settled set_matchers call_resolve set_settled set_promises].
  assert (Hn0 : ~ In (promises st) (map fst (settled st))).
  { intros Hin. apply (consistent_settled_lt st _ Hc) in Hin. lia. }
  assert (Hn1 : ~ In (S (promises st)) (map fst (settled st))).
  { intros Hin. apply (consistent_settled_lt st _ Hc) in Hin. lia. }
  change (settled (sendCommand register [] st)) with (settled st).
  rewrite (settled_value_app _ _ _ Hn0).
  rewrite (settled_value_app_other (S (promises st)) (promises st)) by lia.
  now rewrite (settled_value_None _ _ Hn1).
Qed.

(** The register a holds 1F; the message of an unknown command. *)
Lemma readVariable_value_line_is_thrown_witness :
  exists ps st1,
    readVariable_send "a" init = Some (ps, st1)
    /\ written st1 = [("a" ++ CRLF)%string]
    /\ (exists st2,
           feed_all [("a" ++ CRLF)%string; ("1F" ++ CRLF)%string] st1 = Some st2
           /\ readVariable_await ps st2 = Some (Thrown ("1F" ++ CRLF)%string))
    /\ (exists st2,
           feed_all [("a" ++ CRLF)%string; "1F"] st1 = Some st2
           /\ readVariable_await ps st2 = Some (Returned "1F"))
    /\ (exists st2,
           feed_all [("a" ++ CRLF)%string; "What?"] st1 = Some st2
           /\ readVariable_await ps st2 = None
           /\ map resolve_of (matchers st2) = [1]
           /\ written st2 = written st1).
Proof.
  refine (readVariable_value_line_is_thrown init "a" "1F" "What?" _ _ _ _ _ _).
  - reflexivity.
  - reflexivity.
  - reflexivity.
  - reflexivity.
  - reflexivity.
  - vm_compute. reflexivity.
Defined.

(** ** Termination *)

(** C8. [terminate] fails with exactly the exit code of the child process
    when that code is not zero and succeeds when it is zero; the exited
    event of [terminateRequest] carries that same code (0 on success). *)
Theorem terminate_surfaces_exit_code :
  forall (exitCode : Z) (st : State),
    fst (terminate_onExit exitCode (terminate_send st))
    = (if (exitCode =? 0)%Z then Returned tt else Thrown exitCode)
    /\ fst (Adapter.terminateRequest exitCode st)
       = [Adapter.Response; Adapter.TerminatedEvent; Adapter.ExitedEvent exitCode].
Proof.
  intros exitCode st. unfold Adapter.terminateRequest, terminate_onExit. simpl.
  destruct (Z.eqb_spec exitCode 0) as [-> | Hne]; simpl; split; reflexivity.
Qed.

(** ** Breakpoints past the end of the line map *)

Lemma at_index_length {A : Type} (l : list A) :
  at_index l (Z.of_nat (length l)) = None.
Proof.
  unfold at_index.
  destruct (Z.ltb_spec (Z.of_nat (length l)) 0) as [H | H]; [reflexivity |].
  rewrite Nat2Z.id. apply nth_error_None. lia.
Qed.

Lemma breakpointAddress_past_end :
  forall (lm : list string) (line : Z),
    (Z.of_nat (length lm) <= line)%Z -> breakpointAddress lm line = None.
Proof.
  intros lm line H. unfold breakpointAddress.
  destruct (Z.ltb_spec line (Z.of_nat (length lm))) as [Hlt | _]; [lia |].
  apply at_index_length.
Qed.

(** C2. With the line map 0000, 0002, 0004, a breakpoint on line 3 (the
    length of the map) is not given the final entry 0004: the address
    selected is [undefined], the command written is [bron] with an empty
    argument, and the line reported back is -1. *)
Theorem setBreakpoints_past_end_undefined :
  let lm := ["0000"; "0002"; "0004"] in
  let st := set_maps lm (map (fun a => parseInt a 16) (dedup [] lm)) init in
  breakpointAddress lm 3 = None
  /\ last lm "" = "0004"
  /\ (exists ps st',
         setBreakpoints_send (fun _ => None) "prog.asm" [3%Z] st
         = Some (Returned ([None], ps, st'))
         /\ written st' = [("brc" ++ CRLF)%string; ("bron " ++ CRLF)%string]
         /\ setBreakpoints_return [None] st' = [(-1)%Z]).
Proof.
  cbv zeta. split; [reflexivity |]. split; [reflexivity |].
  eexists. eexists. split; [vm_compute; reflexivity |].
  split; vm_compute; reflexivity.
Qed.

(** ** The disassembly window *)

Lemma indices_S (start : Z) (n : nat) :
  indices start (S n) = start :: indices (start + 1) n.
Proof.
  unfold indices. simpl. rewrite Z.add_0_r. f_equal.
  rewrite <- seq_shift, map_map. apply map_ext. intros k. lia.
Qed.

Lemma padNegative_unfold (i bound : Z) (acc : list Instruction) :
  padNegative i bound acc
  = if ((i <? 0) && (i <? bound))%Z
    then padNegative (i + 1) bound (acc ++ [nop i])
    else acc.
Proof.
  rewrite padNegative_equation_1. unfold padNegative_unfold_clause_1.
  destruct (Z_lt_dec i 0) as [H0 | H0].
  - unfold padNegative_unfold_clause_1_clause_1.
    destruct (Z_lt_dec i bound) as [Hb | Hb].
    + apply Z.ltb_lt in H0, Hb. rewrite H0, Hb. reflexivity.
    + apply Z.ltb_lt in H0. apply Z.ltb_nlt in Hb. rewrite H0, Hb. reflexivity.
  - apply Z.ltb_nlt in H0. rewrite H0. reflexivity.
Qed.

(** The padding loop yields one record per negative index of the window. *)
Lemma padNegative_spec :
  forall (n : nat) (i bound : Z) (acc : list Instruction),
    n = Z.to_nat (Z.min 0 bound - i) ->
    padNegative i bound acc = acc ++ map nop (indices i n).
Proof.
  induction n as [| n IH]; intros i bound acc Hn; rewrite padNegative_unfold.
  - replace ((i <? 0) && (i <? bound))%Z with false.
    + simpl. now rewrite app_nil_r.
    + symmetry. apply andb_false_iff.
      destruct (Z.ltb_spec i 0); [right | now left]. apply Z.ltb_nlt. lia.
  - replace ((i <? 0) && (i <? bound))%Z with true.
    + rewrite (IH (i + 1)%Z bound) by lia.
      rewrite indices_S. simpl. now rewrite <- app_assoc.
    + symmetry. apply andb_true_iff. split; apply Z.ltb_lt; lia.
Qed.





(** C3. The example of the specification, run on the code: instructions
    at 8000, 8003 and 8006, address 8000, offset -2, count 4. The two
    synthetic records come first, as claimed; but the one command written
    is [u 0 2]: on a negative start index the code takes the device
    address 0, not the address of the first instruction. The records after
    the synthetic ones are therefore those of the lines the device prints
    for address 0 (here 0000 and 0003, neither in the line map: line -1),
    not those of 8000 and 8003. With offset -1 the command is [u 0 3].
    With offset 0 the other branch takes the address from the instruction
    list: the command is [u 8000 4] and the lines for 8000, 8003 and 8006
    get the source lines 0, 1 and 2 (8009, past the last instruction, -1). *)
Theorem disassemble_negative_start_reads_from_zero :
  (exists d st1 st2,
      disassemble_send 32768 4 (-2) example_state = Some (d, st1)
      /\ written st1 = [("u 0 2" ++ CRLF)%string]
      /\ feed_all reply_from_0 st1 = Some st2
      /\ disassemble_await d st2
         = Some [ {| address := Some "-2"; instruction := Some "00        nop";
                     line := (-1)%Z |};
                  {| address := Some "-1 "; instruction := Some "00        nop";
                     line := (-1)%Z |};
                  {| address := Some "0000"; instruction := Some "02 80 00  ljmp 8000";
                     line := (-1)%Z |};
                  {| address := Some "0003"; instruction := Some "00        nop";
                     line := (-1)%Z |} ])
  /\ (exists d st1,
         disassemble_send 32768 4 (-1) example_state = Some (d, st1)
         /\ written st1 = [("u 0 3" ++ CRLF)%string])
  /\ (exists d st1 st2,
         disassemble_send 32768 4 0 example_state = Some (d, st1)
         /\ written st1 = [("u 8000 4" ++ CRLF)%string]
         /\ feed_all reply_from_8000 st1 = Some st2
         /\ disassemble_await d st2
            = Some [ {| address := Some "8000"; instruction := Some "02 80 03  ljmp 8003";
                        line := 0%Z |};
                     {| address := Some "8003"; instruction := Some "75 90 01  mov P1, #1";
                        line := 1%Z |};
                     {| address := Some "8006"; instruction := Some "02 80 03  ljmp 8003";
                        line := 2%Z |};
                     {| address := Some "8009"; instruction := Some "00        nop";
                        line := (-1)%Z |} ]).
Proof.
  split; [| split].
  - eexists. eexists. eexists. split; [vm_compute; reflexivity |].
    split; [reflexivity |]. split; [vm_compute; reflexivity |]. vm_compute. reflexivity.
  - eexists. eexists. split; [vm_compute; reflexivity |]. reflexivity.
  - eexists. eexists. eexists. split; [vm_compute; reflexivity |].
    split; [reflexivity |]. split; [vm_compute; reflexivity |]. vm_compute. reflexivity.
Qed.

(** ** Instances *)

(** The listing of the example gives the map 0000, 0000, 0002. *)
Lemma parseLst_entries_hex4_witness :
  ParseLst.parseLst disk "prog.asm" = Some ["0000"; "0000"; "0002"]
  /\ Forall (fun a => ParseLst.is_hex4 a = true) ["0000"; "0000"; "0002"].
Proof.
  split; [vm_compute; reflexivity |].
  apply (parseLst_entries_hex4 disk "prog.asm" ["0000"; "0000"; "0002"]).
  vm_compute. reflexivity.
Defined.

(** [getBreakpoints] on a device with two breakpoints. *)
Lemma matchUntilInteractive_accumulates_witness :
  exists st',
    feed_all (("brl" ++ CRLF)%string :: ["8003"; "8006"] ++ ["> "])
      (registered (fun p => MultiMatcher breakpointPattern p []) init) = Some st'
    /\ settled st'
       = [(0, Many [ {| matched := "8003"; index := 0; input := "8003";
                        groups := [("breakpoint", "8003")] |};
                     {| matched := "8006"; index := 0; input := "8006";
                        groups := [("breakpoint", "8006")] |} ])]
    /\ 2 = 2
    /\ matchers st' = [].
Proof.
  refine (proj2 (matchUntilInteractive_accumulates
                   (registered (fun p => MultiMatcher breakpointPattern p []) init)
                   breakpointPattern 0 [] ("brl" ++ CRLF)%string
                   {| matched := String CR ""; index := 3; input := ("brl" ++ CRLF)%string;
                      groups := [] |}
                   ["8003"; "8006"]
                   [ {| matched := "8003"; index := 0; input := "8003";
                        groups := [("breakpoint", "8003")] |};
                     {| matched := "8006"; index := 0; input := "8006";
                        groups := [("breakpoint", "8006")] |} ]
                   "> " _ _ _ _ _)).
  - reflexivity.
  - vm_compute. reflexivity.
  - repeat constructor.
  - repeat constructor.
  - vm_compute. discriminate.
Defined.

(** A chunk stored in the backlog of a fresh runtime; a prompt expectation
    registered behind a backlog of three chunks; and the state after that
    registration and one more chunk. *)
Lemma backlog_in_arrival_order_witness :
  feed "a" init = Some (set_outputBuffer [ "a" ] init)
  /\ (exists k st1,
         queue (SingleMatcher interactive) (set_outputBuffer ["a"; "> "; "b"] init)
         = Some (0, set_outputBuffer (skipn k ["a"; "> "; "b"]) st1)
         /\ feed_all (firstn k ["a"; "> "; "b"])
              (registered (SingleMatcher interactive) (set_outputBuffer ["a"; "> "; "b"] init))
            = Some st1
         /\ outputBuffer st1 = []
         /\ (k = 3 \/ matchers st1 = []))
  /\ outputBuffer
       (set_emitted ["a"] (set_promises 1 (set_matchers [SingleMatcher interactive 0] init)))
     = [].
Proof.
  split; [| split].
  - apply (proj1 backlog_in_arrival_order "a" init). reflexivity.
  - apply (proj1 (proj2 backlog_in_arrival_order) (SingleMatcher interactive)
             (set_outputBuffer ["a"; "> "; "b"] init)).
    reflexivity.
  - apply (proj2 (proj2 backlog_in_arrival_order) (fun s => s)
             [MatchResponse [interactive]; Data "a"]).
    + vm_compute. reflexivity.
    + discriminate.
Defined.

(** * Further properties *)

(** ** Texts and literal patterns *)

Section TextFacts.

Lemma append_assoc (a b c : string) : ((a ++ b) ++ c = a ++ (b ++ c))%string.
Proof. induction a as [| x a IH]; simpl; [reflexivity | now rewrite IH]. Qed.

Lemma append_nil_r (a : string) : (a ++ "")%string = a.
Proof. induction a as [| x a IH]; simpl; [reflexivity | now rewrite IH]. Qed.

Lemma length_append (a b : string) :
  String.length (a ++ b) = String.length a + String.length b.
Proof. induction a as [| x a IH]; simpl; [reflexivity | now rewrite IH]. Qed.

Lemma substring_prefix (a b : string) : substring 0 (String.length a) (a ++ b) = a.
Proof.
  induction a as [| x a IH]; simpl.
  - destruct b; reflexivity.
  - now rewrite IH.
Qed.

(** A literal matches where the text starts with it, and only there. *)
Lemma exec_Lit (l s : string) (pos : nat) (cs : captures) (k : cont) :
  exec (Lit l) pos (l ++ s) cs k = k (pos + String.length l) s cs.
Proof.
  revert pos. induction l as [| c l IH]; intros pos; simpl.
  - now rewrite Nat.add_0_r.
  - rewrite Ascii.eqb_refl, IH. f_equal. lia.
Qed.

Lemma exec_Lit_inv (l s : string) (pos : nat) (cs : captures) (k : cont) res :
  exec (Lit l) pos s cs k = Some res -> exists post, s = (l ++ post)%string.
Proof.
  revert pos s. induction l as [| c l IH]; intros pos s H; simpl in H.
  - exists s. reflexivity.
  - destruct s as [| c' s]; [discriminate |].
    destruct (Ascii.eqb_spec c c') as [<- | _]; [| discriminate].
    apply IH in H. destruct H as [post ->]. exists post. reflexivity.
Qed.

Lemma search_Lit (l s : string) (pos : nat) :
  search (Lit l) pos s <> None <-> exists pre post, s = (pre ++ l ++ post)%string.
Proof.
  revert pos. induction s as [| c s IH]; intros pos; cbn [search].
  - destruct (exec (Lit l) pos "" [] accept) as [[e cs] |] eqn:E.
    + split; [intros _ | discriminate].
      apply exec_Lit_inv in E. destruct E as [post E]. exists "", post. exact E.
    + split; [congruence |]. intros [pre [post H]].
      destruct pre; [| discriminate]. simpl in H.
      rewrite H, exec_Lit in E. discriminate.
  - destruct (exec (Lit l) pos (String c s) [] accept) as [[e cs] |] eqn:E.
    + split; [intros _ | discriminate].
      apply exec_Lit_inv in E. destruct E as [post E]. exists "", post. exact E.
    + rewrite IH. split.
      * intros [pre [post ->]]. exists (String c pre), post. reflexivity.
      * intros [pre [post H]]. destruct pre as [| c' pre].
        -- simpl in H. rewrite H, exec_Lit in E. discriminate.
        -- simpl in H. inversion H. eauto.
Qed.

(** The prompt expectation matches exactly the chunks that hold the two
    characters of the prompt. *)
Lemma interactive_iff (s : string) :
  js_match s interactive <> None <-> exists pre post, s = (pre ++ "> " ++ post)%string.
Proof.
  unfold js_match, interactive. rewrite <- (search_Lit "> " s 0).
  destruct (search (Lit "> ") 0 s) as [[[b e] cs] |]; split; congruence.
Qed.

End TextFacts.

(** ** Operations that await the prompt *)

Section PromptFacts.

Lemma no_prompt (c : string) :
  (forall pre post, c <> (pre ++ "> " ++ post)%string) -> js_match c interactive = None.
Proof.
  intros H. destruct (js_match c interactive) eqn:E; [| reflexivity].
  assert (Hm : js_match c interactive <> None) by congruence.
  apply interactive_iff in Hm. destruct Hm as [pre [post Hm]]. now apply H in Hm.
Qed.

Lemma has_prompt (pre post : string) :
  exists m, js_match (pre ++ "> " ++ post) interactive = Some m.
Proof.
  destruct (js_match (pre ++ "> " ++ post) interactive) as [m |] eqn:E; [eauto |].
  exfalso. revert E. apply interactive_iff. eauto.
Qed.

(** One expectation of the prompt, registered in a quiet state: it waits
    through the chunks without the prompt and is settled by the first chunk
    that holds it. *)
Lemma await_prompt :
  forall (st : State) (skipped : list string) (pre post : string),
    consistent st -> matchers st = [] -> outputBuffer st = [] ->
    Forall (fun c => forall a b, c <> (a ++ "> " ++ b)%string) skipped ->
    exists ps st1 st2,
      matchResponse [interactive] st = Some (ps, st1)
      /\ written st1 = written st
      /\ feed_all skipped st1 = Some st1
      /\ prompts_await ps st1 = None
      /\ feed (pre ++ "> " ++ post) st1 = Some st2
      /\ prompts_await ps st2 = Some tt
      /\ matchers st2 = []
      /\ written st2 = written st.
Proof.
  intros st skipped pre post Hc Hq Hb Hs.
  rewrite (matchResponse_queues [interactive] st Hb), Hq. cbn [app singles length seq].
  set (st1 := set_promises _ _).
  assert (Hq1 : matchers st1 = [SingleMatcher interactive (promises st)]) by reflexivity.
  assert (Hn : ~ In (promises st) (map fst (settled st))).
  { intros Hin. apply (consistent_settled_lt st _ Hc) in Hin. lia. }
  destruct (has_prompt pre post) as [m Hm].
  exists [promises st], st1. eexists.
  split; [reflexivity |]. split; [reflexivity |]. split.
  { eapply single_skip; [exact Hq1 |].
    eapply Forall_impl; [| exact Hs]. intros c Hc'. now apply no_prompt. }
  split.
  { unfold prompts_await, await_all. subst st1. cbn [settled set_promises set_matchers].
    now rewrite (settled_value_None _ _ Hn). }
  split; [apply (single_hit _ m _ _ _ _ Hq1 Hm) |].
  split; [| split; reflexivity].
  unfold prompts_await, await_all. subst st1.
  cbn [settled set_promises set_matchers call_resolve set_settled].
  now rewrite (settled_value_app _ _ _ Hn).
Qed.

End PromptFacts.

(** X1. [evaluate] writes its input followed by CRLF, [setVariable] the
    register, an equals sign and the value followed by CRLF. Called in a
    quiet state, each waits through every chunk that does not hold the two
    characters of the prompt, completes at the first chunk that holds them,
    wherever in the chunk, and writes nothing more. *)
Theorem evaluate_setVariable_complete_at_prompt :
  forall (st : State) (input register value : string)
         (skipped : list string) (pre post : string),
    consistent st -> matchers st = [] -> outputBuffer st = [] ->
    Forall (fun c => forall a b, c <> (a ++ "> " ++ b)%string) skipped ->
    (exists ps st1 st2,
        evaluate_send input st = Some (ps, st1)
        /\ written st1 = written st ++ [(input ++ CRLF)%string]
        /\ feed_all skipped st1 = Some st1
        /\ prompts_await ps st1 = None
        /\ feed (pre ++ "> " ++ post) st1 = Some st2
        /\ prompts_await ps st2 = Some tt
        /\ written st2 = written st1)
    /\ (exists ps st1 st2,
           setVariable_send register value st = Some (ps, st1)
           /\ written st1 = written st ++ [(register ++ "=" ++ value ++ CRLF)%string]
           /\ feed_all skipped st1 = Some st1
           /\ prompts_await ps st1 = None
           /\ feed (pre ++ "> " ++ post) st1 = Some st2
           /\ prompts_await ps st2 = Some tt
           /\ written st2 = written st1).
Proof.
  intros st input register value skipped pre post Hc Hq Hb Hs. split.
  - destruct (await_prompt (sendCommand input [] st) skipped pre post)
      as [ps [st1 [st2 [E [Hw [Hf [Hp [Hf2 [Hp2 [_ Hw2]]]]]]]]]]; auto.
    exists ps, st1, st2. unfold evaluate_send. rewrite E.
    repeat split; auto; congruence.
  - destruct (await_prompt (sendCommand (register ++ "=" ++ value) [] st) skipped pre post)
      as [ps [st1 [st2 [E [Hw [Hf [Hp [Hf2 [Hp2 [_ Hw2]]]]]]]]]]; auto.
    exists ps, st1, st2. unfold setVariable_send. rewrite E.
    repeat split; auto; try congruence.
    rewrite Hw. simpl. now rewrite append_assoc.
Qed.

Lemma evaluate_setVariable_complete_at_prompt_witness :
  (exists ps st1 st2,
      evaluate_send "brl" init = Some (ps, st1)
      /\ written st1 = [("brl" ++ CRLF)%string]
      /\ feed_all [("brl" ++ CRLF)%string; "8003"] st1 = Some st1
      /\ prompts_await ps st1 = None
      /\ feed ("" ++ "> " ++ "") st1 = Some st2
      /\ prompts_await ps st2 = Some tt
      /\ written st2 = written st1)
  /\ (exists ps st1 st2,
         setVariable_send "A" "1F" init = Some (ps, st1)
         /\ written st1 = [("A" ++ "=" ++ "1F" ++ CRLF)%string]
         /\ feed_all [("brl" ++ CRLF)%string; "8003"] st1 = Some st1
         /\ prompts_await ps st1 = None
         /\ feed ("" ++ "> " ++ "") st1 = Some st2
         /\ prompts_await ps st2 = Some tt
         /\ written st2 = written st1).
Proof.
  refine (evaluate_setVariable_complete_at_prompt init "brl" "A" "1F"
            [("brl" ++ CRLF)%string; "8003"] "" "" _ _ _ _).
  - reflexivity.
  - reflexivity.
  - reflexivity.
  - repeat constructor; intros a b H;
      (assert (Hm : js_match _ interactive <> None)
         by (apply interactive_iff; exists a, b; exact H));
      vm_compute in Hm; congruence.
Defined.

(** ** What the matcher queue leaves alone *)

Section FrameFacts.

Lemma same_frame_refl (st : State) : same_frame st st.
Proof. repeat split. Qed.

Lemma same_frame_trans (st1 st2 st3 : State) :
  same_frame st1 st2 -> same_frame st2 st3 -> same_frame st1 st3.
Proof. unfold same_frame. intuition congruence. Qed.

Lemma head_step_frame :
  forall st st' consumed, head_step st st' consumed -> same_frame st st'.
Proof. intros st st' consumed [m m' rest _ -> _ | m rest v _ ->]; repeat split. Qed.

Lemma drain_loop_frame :
  forall buffer st st', drain_loop buffer st = Some st' -> same_frame st st'.
Proof.
  induction buffer as [| l rest IH]; intros st st' H; simpl in H.
  - inversion H. repeat split.
  - destruct (runNextMatcher l (set_outputBuffer rest st)) as [[[|] st1] |] eqn:E;
      [| | discriminate]; apply runNextMatcher_head, head_step_frame in E.
    + inversion H; subst. exact E.
    + apply IH in H. eapply same_frame_trans; [exact E | exact H].
Qed.

Lemma queue_frame :
  forall mk st p st', queue mk st = Some (p, st') -> same_frame st st'.
Proof.
  intros mk st p st' H. unfold queue, drain in H.
  match type of H with
  | match drain_loop ?b ?s with _ => _ end = _ => destruct (drain_loop b s) eqn:E
  end; [| discriminate].
  inversion H; subst. apply drain_loop_frame in E. exact E.
Qed.

Lemma matchResponse_frame :
  forall patterns st ps st', matchResponse patterns st = Some (ps, st') -> same_frame st st'.
Proof.
  induction patterns as [| pattern rest IH]; intros st ps st' H; simpl in H.
  - inversion H. apply same_frame_refl.
  - destruct (queue (SingleMatcher pattern) st) as [[p st1] |] eqn:E1; [| discriminate].
    destruct (matchResponse rest st1) as [[ps2 st2] |] eqn:E2; [| discriminate].
    inversion H; subst. apply queue_frame in E1. apply IH in E2.
    eapply same_frame_trans; eauto.
Qed.

Lemma feed_frame :
  forall data st st', feed data st = Some st' -> same_frame st st'.
Proof.
  intros data st st' H. unfold feed in H. destruct (matchers st) as [| m q] eqn:Eq.
  - inversion H. repeat split.
  - destruct (runNextMatcher data st) as [[consumed st1] |] eqn:E; [| discriminate].
    inversion H; subst. eapply head_step_frame, runNextMatcher_head. exact E.
Qed.

Lemma feed_all_frame :
  forall chunks st st', feed_all chunks st = Some st' -> same_frame st st'.
Proof.
  induction chunks as [| c chunks IH]; intros st st' H; simpl in H.
  - inversion H. apply same_frame_refl.
  - destruct (feed c st) as [st1 |] eqn:E; [| discriminate].
    apply feed_frame in E. apply IH in H. eapply same_frame_trans; eauto.
Qed.

(** With no matcher waiting every chunk goes to the end of the backlog. *)
Lemma feed_all_idle :
  forall chunks st,
    matchers st = [] ->
    feed_all chunks st = Some (set_outputBuffer (outputBuffer st ++ chunks) st).
Proof.
  induction chunks as [| c chunks IH]; intros st Hq; simpl.
  - rewrite app_nil_r. now destruct st.
  - unfold feed. rewrite Hq. rewrite IH by exact Hq. simpl. now rewrite <- app_assoc.
Qed.

End FrameFacts.

(** X2. Output that arrives before an expectation is registered is worth
    the same as output that arrives after it: from a quiet state, giving
    the chunks to the listener and then registering a matcher ends in the
    same state as registering the matcher and then giving it the chunks. *)
Theorem registration_commutes_with_arrival :
  forall (mk : nat -> Matcher) (st : State) (chunks : list string),
    matchers st = [] -> outputBuffer st = [] ->
    exists st',
      queue mk st = Some (promises st, registered mk st)
      /\ feed_all chunks (registered mk st) = Some st'
      /\ feed_all chunks st = Some (set_outputBuffer chunks st)
      /\ queue mk (set_outputBuffer chunks st) = Some (promises st, st').
Proof.
  intros mk st chunks Hq Hb.
  assert (E1 : queue mk st = Some (promises st, registered mk st)).
  { unfold queue, drain.
    cbn [matchers outputBuffer promises set_matchers set_promises]. now rewrite Hq, Hb. }
  assert (E3 : feed_all chunks st = Some (set_outputBuffer chunks st))
    by (rewrite (feed_all_idle chunks st Hq), Hb; reflexivity).
  destruct (drain_loop_spec chunks
              (set_matchers [mk (promises st)]
                 (set_promises (S (promises st)) (set_outputBuffer chunks st))))
    as [k [st1 [Ed [Ef [Hb1 Hk]]]]]; [discriminate |].
  change (set_outputBuffer [] _) with (registered mk st) in Ef.
  exists (set_outputBuffer (skipn k chunks) st1).
  split; [exact E1 |]. split; [| split; [exact E3 |]].
  - rewrite <- (firstn_skipn k chunks) at 1. rewrite feed_all_app, Ef.
    destruct Hk as [-> | Hk].
    + rewrite skipn_all. simpl. now rewrite set_outputBuffer_same.
    + simpl in Hk. rewrite (feed_all_idle _ _ Hk), Hb1. reflexivity.
  - unfold queue, drain.
    cbn [matchers outputBuffer promises set_matchers set_promises set_outputBuffer].
    rewrite Hq. cbn [app]. now rewrite Ed.
Qed.

Lemma registration_commutes_with_arrival_witness :
  exists st',
    queue (SingleMatcher interactive) init
    = Some (0, registered (SingleMatcher interactive) init)
    /\ feed_all ["a"; "> "; "b"] (registered (SingleMatcher interactive) init) = Some st'
    /\ feed_all ["a"; "> "; "b"] init = Some (set_outputBuffer ["a"; "> "; "b"] init)
    /\ queue (SingleMatcher interactive) (set_outputBuffer ["a"; "> "; "b"] init)
       = Some (0, st').
Proof.
  apply (registration_commutes_with_arrival (SingleMatcher interactive) init
           ["a"; "> "; "b"]); reflexivity.
Defined.

(** X3. Every chunk received is forwarded to the [output] event as it came,
    in order, whatever the matchers make of it: in every state a session
    reaches, the payloads emitted are the raw chunks received. *)
Theorem output_forwarded_verbatim :
  forall (stripAnsi : string -> string) (events : list Event) (st : State),
    run stripAnsi events init = Some st ->
    emitted st = received events.
Proof.
  intros stripAnsi events st H.
  assert (G : forall events st0 st,
             listening st0 = true ->
             run stripAnsi events st0 = Some st ->
             emitted st = emitted st0 ++ received events).
  { clear. induction events as [| e events IH]; intros st0 st Hl H; simpl in H.
    - inversion H. simpl. now rewrite app_nil_r.
    - destruct (step stripAnsi e st0) as [st1 |] eqn:E; [| discriminate].
      destruct e as [rawData | patterns | pattern | command args]; simpl in E.
      + rewrite Hl in E. unfold onData in E. apply feed_frame in E.
        destruct E as [He [Hl1 _]]. simpl in He, Hl1.
        rewrite (IH st1 st) by congruence. rewrite He. simpl. now rewrite <- app_assoc.
      + destruct (matchResponse patterns st0) as [[ps st2] |] eqn:E2; [| discriminate].
        inversion E; subst. apply matchResponse_frame in E2. destruct E2 as [He [Hl1 _]].
        rewrite (IH st1 st) by congruence. now rewrite He.
      + destruct (matchUntilInteractive pattern st0) as [[p st2] |] eqn:E2; [| discriminate].
        inversion E; subst. apply queue_frame in E2. destruct E2 as [He [Hl1 _]].
        rewrite (IH st1 st) by congruence. now rewrite He.
      + inversion E; subst. now rewrite (IH (sendCommand command args st0) st Hl H). }
  apply (G events init st); [reflexivity | exact H].
Qed.

Lemma output_forwarded_verbatim_witness :
  emitted (set_emitted ["a"; "> "]
             (set_promises 1 (call_resolve 0
                (One {| matched := "> "; index := 0; input := "> "; groups := [] |}) init)))
  = received [Data "a"; MatchResponse [interactive]; Data "> "].
Proof.
  apply (output_forwarded_verbatim (fun s => s)
           [Data "a"; MatchResponse [interactive]; Data "> "]).
  vm_compute. reflexivity.
Defined.

(** ** The sanitizer and the path of the listing *)

Section SanitizerFacts.

Lemma replaceCursorRight_plain (c : ascii) (s : string) :
  Ascii.eqb c ESC = false ->
  replaceCursorRight (String c s) = String c (replaceCursorRight s).
Proof.
  intros H. destruct s as [| c1 [| d [| c3 s4]]]; try reflexivity.
  cbn [replaceCursorRight]. rewrite H. reflexivity.
Qed.

Lemma replaceCursorRight_escape (d : ascii) (s : string) :
  digit d = true ->
  replaceCursorRight (String ESC (String "[" (String d (String "C" s))))
  = (spaces (nat_of_ascii d - 48) ++ replaceCursorRight s)%string.
Proof. intros H. cbn [replaceCursorRight]. rewrite H. reflexivity. Qed.

End SanitizerFacts.

(** X4. The replacement of the cursor-right sequences leaves a text
    without the escape character as it is, and turns the first sequence
    ESC [ d C of a text, d a decimal digit, into d spaces, the text before
    it kept and the text after it treated in the same way. *)
Theorem replaceCursorRight_spaces :
  (forall s, no_escape s = true -> replaceCursorRight s = s)
  /\ (forall before d after,
         no_escape before = true -> digit d = true ->
         replaceCursorRight
           (before ++ String ESC (String "[" (String d (String "C" after))))
         = (before ++ spaces (nat_of_ascii d - 48) ++ replaceCursorRight after)%string
         /\ String.length (spaces (nat_of_ascii d - 48)) = nat_of_ascii d - 48).
Proof.
  split.
  - induction s as [| c s IH]; intros H; [reflexivity |].
    unfold no_escape in H. simpl in H. apply andb_true_iff in H. destruct H as [Hc Hs].
    rewrite replaceCursorRight_plain by (now apply negb_true_iff).
    now rewrite IH.
  - intros before d after Hb Hd. split.
    + induction before as [| c before IH].
      * cbn [append]. now apply replaceCursorRight_escape.
      * unfold no_escape in Hb. simpl in Hb. apply andb_true_iff in Hb.
        destruct Hb as [Hc Hb]. cbn [append].
        rewrite replaceCursorRight_plain by (now apply negb_true_iff).
        now rewrite IH.
    + unfold spaces. induction (nat_of_ascii d - 48) as [| n IH]; [reflexivity |].
      simpl. destruct n; [reflexivity |]. simpl in *. now rewrite IH.
Qed.

Lemma replaceCursorRight_spaces_witness :
  replaceCursorRight "A =00" = "A =00"
  /\ replaceCursorRight
       ("A =" ++ String ESC (String "["%char (String "2"%char (String "C"%char "B ="))))
     = ("A =" ++ spaces 2 ++ replaceCursorRight "B =")%string.
Proof.
  split.
  - apply (proj1 replaceCursorRight_spaces "A =00"). reflexivity.
  - apply (proj1 (proj2 replaceCursorRight_spaces "A =" "2"%char "B =" eq_refl eq_refl)).
Defined.

(** ** Lines and addresses *)

Section LookupFacts.

Lemma at_index_nat {A : Type} (l : list A) (k : nat) :
  at_index l (Z.of_nat k) = nth_error l k.
Proof.
  unfold at_index. destruct (Z.ltb_spec (Z.of_nat k) 0); [lia |]. now rewrite Nat2Z.id.
Qed.

Lemma at_index_Some {A : Type} (l : list A) (i : Z) (x : A) :
  at_index l i = Some x -> (0 <= i < Z.of_nat (length l))%Z.
Proof.
  unfold at_index. destruct (Z.ltb_spec i 0) as [Hneg | Hpos]; [discriminate |]. intros Hx.
  assert (Z.to_nat i < length l) by (apply nth_error_Some; congruence). lia.
Qed.

(** The last index of a text: no index when the text is absent, else the
    greatest index that holds it. *)
Lemma lastIndexOf_from_spec :
  forall (l : list string) (i : Z) (x : string) (found : Z),
    (~ In x l /\ lastIndexOf_from i l x found = found)
    \/ exists k,
         lastIndexOf_from i l x found = (i + Z.of_nat k)%Z
         /\ nth_error l k = Some x
         /\ forall j, k < j -> nth_error l j <> Some x.
Proof.
  induction l as [| y l IH]; intros i x found; simpl.
  - left. auto.
  - destruct (IH (i + 1)%Z x (if String.eqb y x then i else found))
      as [[Hn E] | [k [E [Hk Hlast]]]].
    + rewrite E. destruct (String.eqb_spec y x) as [-> | Hne].
      * right. exists 0. split; [lia |]. split; [reflexivity |].
        intros [| j] Hj; [lia |]. simpl. intros Hj'. apply Hn. eapply nth_error_In; eauto.
      * left. split; [| reflexivity]. intros [? | ?]; auto.
    + right. exists (S k). split; [rewrite E; lia |]. split; [exact Hk |].
      intros [| j] Hj; [lia |]. simpl. apply Hlast. lia.
Qed.

Lemma lastIndexOf_spec :
  forall (lm : list string) (x : string),
    (~ In x lm /\ lastIndexOf lm (Some x) = (-1)%Z)
    \/ ((0 <= lastIndexOf lm (Some x) < Z.of_nat (length lm))%Z
        /\ at_index lm (lastIndexOf lm (Some x)) = Some x
        /\ forall j, (lastIndexOf lm (Some x) < j)%Z -> at_index lm j <> Some x).
Proof.
  intros lm x. unfold lastIndexOf.
  destruct (lastIndexOf_from_spec lm 0 x (-1)) as [H | [k [E [Hk Hlast]]]]; [now left |].
  right. rewrite E. simpl.
  assert (Hlt : k < length lm) by (apply nth_error_Some; congruence).
  split; [lia |]. split; [now rewrite at_index_nat |].
  intros j Hj Hat. pose proof (at_index_Some _ _ _ Hat) as Hr.
  rewrite <- (Z2Nat.id j) in Hat by lia. rewrite at_index_nat in Hat.
  apply (Hlast (Z.to_nat j)); [lia | exact Hat].
Qed.

(** The first index of a number: -1 when it is absent, else an index that
    holds it. *)
Lemma indexOf_from_spec :
  forall (l : list number) (i x : Z),
    (~ In (Some x) l /\ indexOf_from i l x = (-1)%Z)
    \/ exists k, indexOf_from i l x = (i + Z.of_nat k)%Z /\ nth_error l k = Some (Some x).
Proof.
  induction l as [| y l IH]; intros i x; simpl.
  - left. auto.
  - destruct y as [v |].
    + destruct (Z.eqb_spec v x) as [-> | Hne].
      * right. exists 0. split; [lia | reflexivity].
      * destruct (IH (i + 1)%Z x) as [[Hn E] | [k [E Hk]]].
        -- left. split; [| exact E]. intros [H | H]; [congruence | auto].
        -- right. exists (S k). split; [rewrite E; lia | exact Hk].
    + destruct (IH (i + 1)%Z x) as [[Hn E] | [k [E Hk]]].
      * left. split; [| exact E]. intros [H | H]; [discriminate | auto].
      * right. exists (S k). split; [rewrite E; lia | exact Hk].
Qed.

Lemma indexOf_known :
  forall (il : list number) (x : Z),
    In (Some x) il ->
    (0 <= indexOf il x < Z.of_nat (length il))%Z
    /\ at_index il (indexOf il x) = Some (Some x).
Proof.
  intros il x Hin. unfold indexOf.
  destruct (indexOf_from_spec il 0 x) as [[Hn _] | [k [E Hk]]]; [contradiction |].
  rewrite E. simpl. assert (k < length il) by (apply nth_error_Some; congruence).
  split; [lia | now rewrite at_index_nat].
Qed.


End LookupFacts.

(** X6. For every requested line inside the line map, the line
    [setBreakpoints] reports back is the greatest line of the map with the
    same address as the requested line: it is not below the requested line,
    and it is the requested line itself when no address is repeated. *)
Theorem setBreakpoints_reports_last_line :
  forall (st : State) (lm : list string) (lines : list Z),
    lineMap st = Some lm ->
    Forall (fun l => (0 <= l < Z.of_nat (length lm))%Z) lines ->
    Forall2 (fun l r =>
               (l <= r < Z.of_nat (length lm))%Z
               /\ at_index lm r = at_index lm l
               /\ forall j, (r < j)%Z -> at_index lm j <> at_index lm l)
            lines (setBreakpoints_return (map (breakpointAddress lm) lines) st)
    /\ (NoDup lm -> setBreakpoints_return (map (breakpointAddress lm) lines) st = lines).
Proof.
  intros st lm lines Hlm Hall. unfold setBreakpoints_return. rewrite Hlm.
  assert (Hone : forall l,
             (0 <= l < Z.of_nat (length lm))%Z ->
             let r := lastIndexOf lm (breakpointAddress lm l) in
             (l <= r < Z.of_nat (length lm))%Z
             /\ at_index lm r = at_index lm l
             /\ forall j, (r < j)%Z -> at_index lm j <> at_index lm l).
  { intros l Hl r. subst r. unfold breakpointAddress.
    destruct (Z.ltb_spec l (Z.of_nat (length lm))) as [_ | Hge]; [| lia].
    destruct (at_index lm l) as [x |] eqn:Ex.
    - destruct (lastIndexOf_spec lm x) as [[Hn _] | [Hr [Hat Hlast]]].
      + exfalso. apply Hn. unfold at_index in Ex.
        destruct (l <? 0)%Z; [discriminate |]. eapply nth_error_In; eauto.
      + split; [| split; [exact Hat | exact Hlast]].
        split; [| lia].
        destruct (Z.le_gt_cases l (lastIndexOf lm (Some x))) as [Hle | Hgt]; [exact Hle |].
        exfalso. apply (Hlast l); [lia | exact Ex].
    - exfalso. unfold at_index in Ex. destruct (Z.ltb_spec l 0); [lia |].
      apply nth_error_None in Ex. lia. }
  split.
  - induction Hall as [| l lines Hl _ IH]; simpl; constructor; auto.
  - intros Hnd. induction Hall as [| l lines Hl _ IH]; simpl; [reflexivity |].
    rewrite IH. f_equal.
    destruct (Hone l Hl) as [Hr [Hat _]].
    set (r := lastIndexOf lm (breakpointAddress lm l)) in *.
    rewrite <- (Z2Nat.id r), <- (Z2Nat.id l) in Hat by lia.
    rewrite !at_index_nat in Hat.
    assert (Z.to_nat r = Z.to_nat l).
    { apply (proj1 (NoDup_nth_error lm) Hnd); [| exact Hat].
      apply nth_error_Some. destruct (nth_error lm (Z.to_nat r)) eqn:E; [discriminate |].
      apply nth_error_None in E. lia. }
    lia.
Qed.

Lemma setBreakpoints_reports_last_line_witness :
  Forall2 (fun l r =>
             (l <= r < 3)%Z
             /\ at_index ["0000"; "0000"; "0002"] r = at_index ["0000"; "0000"; "0002"] l
             /\ forall j, (r < j)%Z ->
                          at_index ["0000"; "0000"; "0002"] j
                          <> at_index ["0000"; "0000"; "0002"] l)
          [0%Z; 2%Z]
          (setBreakpoints_return
             (map (breakpointAddress ["0000"; "0000"; "0002"]) [0%Z; 2%Z])
             (set_maps ["0000"; "0000"; "0002"] [Some 0%Z; Some 2%Z] init)).
Proof.
  refine (proj1 (setBreakpoints_reports_last_line
                   (set_maps ["0000"; "0000"; "0002"] [Some 0%Z; Some 2%Z] init)
                   ["0000"; "0000"; "0002"] [0%Z; 2%Z] eq_refl _)).
  repeat constructor; simpl; lia.
Defined.

(** ** More on the disassembly window *)

Section WindowFacts.

(** When the window reaches a non-negative index, [disassemble] writes one
    [u] command, for the address and count of [debuggerWindow], and awaits
    one promise. *)
Lemma disassemble_send_command :
  forall (st : State) (il : list number) (address instructionCount instructionOffset : Z),
    consistent st -> backlog_idle st ->
    instructionList st = Some il ->
    let startInstr := (baseInstr il address + instructionOffset)%Z in
    (0 < startInstr + instructionCount)%Z ->
    exists st',
      disassemble_send address instructionCount instructionOffset st
      = Some ({| results := padNegative startInstr (startInstr + instructionCount) [];
                 lastAddress := endAddress il;
                 awaited := Some (promises st) |}, st')
      /\ written st'
         = written st
           ++ [command_line
                 ["u"; toString16 (fst (debuggerWindow il startInstr instructionCount));
                  toString16 (Some (snd (debuggerWindow il startInstr instructionCount)))]].
Proof.
  intros st il address instructionCount instructionOffset Hc Hb Hil startInstr Hpos.
  unfold disassemble_send. rewrite Hil. fold startInstr.
  destruct (Z.ltb_spec 0 (startInstr + instructionCount)) as [_ | Hle]; [| lia].
  destruct (debuggerWindow il startInstr instructionCount) as [dsa cnt]. cbn [fst snd].
  unfold matchUntilInteractive.
  destruct (queue_inv (fun p => MultiMatcher disassemblePattern p [])
              (sendCommand "u" [Some (toString16 dsa); Some (toString16 (Some cnt))] st))
    as [st' [E [_ [_ [_ Hw]]]]]; auto.
  rewrite E. exists st'. split; [reflexivity | exact Hw].
Qed.

Lemma padNegative_from_nonnegative (i bound : Z) :
  (0 <= i)%Z -> padNegative i bound [] = [].
Proof. intros H. rewrite (padNegative_spec 0) by lia. reflexivity. Qed.


(** At offset 0 the window of a listed address, or of an address past the
    last instruction, starts at that address. *)
Lemma debuggerWindow_at_address (il : list number) (address instructionCount : Z) :
  (0 <= address)%Z ->
  In (Some address) il \/ (exists e, endAddress il = Some e /\ (e < address)%Z) ->
  (0 <= baseInstr il address)%Z
  /\ debuggerWindow il (baseInstr il address) instructionCount
     = (Some address, instructionCount).
Proof.
  intros Ha H. unfold baseInstr.
  destruct (Z.ltb_spec address 0) as [Hneg | _]; [lia |].
  assert (Hknown : In (Some address) il ->
                   (0 <= indexOf il address)%Z
                   /\ debuggerWindow il (indexOf il address) instructionCount
                      = (Some address, instructionCount)).
  { intros Hin. destruct (indexOf_known il address Hin) as [Hr Hat].
    split; [lia |]. unfold debuggerWindow.
    destruct (Z.ltb_spec (indexOf il address) 0); [lia |].
    destruct (Z.leb_spec (Z.of_nat (length il)) (indexOf il address)); [lia |].
    now rewrite Hat. }
  destruct (endAddress il) as [e |] eqn:Ee.
  - destruct (Z.ltb_spec e address) as [Hlt | Hge].
    + assert (Hlen : (0 < Z.of_nat (length il))%Z).
      { destruct il; [discriminate | simpl; lia]. }
      split; [lia |]. unfold debuggerWindow. rewrite Ee.
      destruct (Z.ltb_spec (Z.of_nat (length il) - 1 + address - e) 0); [lia |].
      destruct (Z.leb_spec (Z.of_nat (length il)) (Z.of_nat (length il) - 1 + address - e));
        [| lia].
      simpl. do 2 f_equal. lia.
    + destruct H as [Hin | [e' [He' Hlt]]]; [now apply Hknown |].
      inversion He'; subst. lia.
  - destruct H as [Hin | [e' [He' _]]]; [now apply Hknown | discriminate].
Qed.


End WindowFacts.

(** X7. At offset 0, for a count above 0 and an address that is in the
    instruction list or past its last address, [disassemble] builds no
    synthetic record and asks the device for exactly that address and that
    count, both in hexadecimal. The numbers are those on which the doubles
    of the source are exact: addresses of the list between 0 and 2^53, and
    address, length of the list and count of a sum of at most 2^53. *)
Theorem disassemble_from_address :
  forall (st : State) (il : list number) (address instructionCount : Z),
    consistent st -> backlog_idle st ->
    instructionList st = Some il ->
    in_double_range il address instructionCount ->
    (0 <= address)%Z -> (0 < instructionCount)%Z ->
    In (Some address) il \/ (exists e, endAddress il = Some e /\ (e < address)%Z) ->
    exists d st',
      disassemble_send address instructionCount 0 st = Some (d, st')
      /\ results d = []
      /\ written st'
         = written st
           ++ [command_line ["u"; toString16 (Some address);
                             toString16 (Some instructionCount)]].
Proof.
  intros st il address instructionCount Hc Hb Hil _ Ha Hcount Hknown.
  destruct (debuggerWindow_at_address il address instructionCount Ha Hknown) as [Hbase Hwin].
  destruct (disassemble_send_command st il address instructionCount 0 Hc Hb Hil)
    as [st' [E Hw]]; [lia |].
  rewrite Z.add_0_r in E, Hw. rewrite Hwin in Hw.
  eexists. exists st'. split; [exact E |]. split; [| exact Hw].
  cbn [results]. now apply padNegative_from_nonnegative.
Qed.

Lemma disassemble_from_address_witness :
  (exists d st',
      disassemble_send 32771 2 0 example_state = Some (d, st')
      /\ results d = []
      /\ written st' = [] ++ [command_line ["u"; "8003"; "2"]])
  /\ (exists d st',
         disassemble_send 32780 2 0 example_state = Some (d, st')
         /\ results d = []
         /\ written st' = [] ++ [command_line ["u"; "800c"; "2"]]).
Proof.
  split.
  - refine (disassemble_from_address example_state
              [Some 32768%Z; Some 32771%Z; Some 32774%Z] 32771 2 _ _ _ _ _ _ _).
    + reflexivity.
    + now left.
    + reflexivity.
    + split; [repeat constructor; lia | simpl; lia].
    + lia.
    + lia.
    + left. simpl. auto.
  - refine (disassemble_from_address example_state
              [Some 32768%Z; Some 32771%Z; Some 32774%Z] 32780 2 _ _ _ _ _ _ _).
    + reflexivity.
    + now left.
    + reflexivity.
    + split; [repeat constructor; lia | simpl; lia].
    + lia.
    + lia.
    + right. exists 32774%Z. split; [reflexivity | lia].
Defined.





(** X10. Every record [disassemble] returns for a line of the device has
    either the line -1 or a line of the line map whose address is the
    address of the record; a record whose address is above the last
    instruction's has the line -1. *)
Theorem disassemble_lines_are_mapped :
  forall (d : Disassembly) (debuggerResults : list RegExpMatchArray) (st : State)
         (lm : list string) (records : list Instruction),
    lineMap st = Some lm ->
    disassemble_return d debuggerResults st = Some records ->
    exists device,
      records = results d ++ device
      /\ length device = length debuggerResults
      /\ Forall (fun r =>
                   line r = (-1)%Z
                   \/ ((0 <= line r < Z.of_nat (length lm))%Z
                       /\ at_index lm (line r) = address r))
                device
      /\ Forall (fun r =>
                   forall a n e,
                     address r = Some a -> parseInt a 16 = Some n ->
                     lastAddress d = Some e -> (e < n)%Z -> line r = (-1)%Z)
                device.
Proof.
  intros d debuggerResults st lm records Hlm H. unfold disassemble_return in H.
  rewrite Hlm in H.
  destruct (mapM (deviceRecord (lastAddress d) (Some lm)) debuggerResults)
    as [device |] eqn:E; [| discriminate].
  inversion H; subst records. clear H. exists device. split; [reflexivity |].
  revert device E. induction debuggerResults as [| m ms IH]; intros device E; simpl in E.
  - inversion E. repeat split; constructor.
  - destruct (deviceRecord (lastAddress d) (Some lm) m) as [r |] eqn:Er; [| discriminate].
    destruct (mapM (deviceRecord (lastAddress d) (Some lm)) ms) as [rs |]; [| discriminate].
    inversion E; subst device. destruct (IH rs eq_refl) as [Hlen [H1 H2]].
    split; [simpl; now rewrite Hlen |].
    unfold deviceRecord in Er.
    destruct (num_le _ (lastAddress d)) eqn:Hle; simpl in Er; inversion Er; subst r; clear Er.
    + split; constructor; auto; cbn [line address].
      * destruct (group m "address") as [a |] eqn:Ea; [| now left].
        destruct (lastIndexOf_spec lm a) as [[_ Hr] | [Hr [Hat _]]]; [now left | now right].
      * intros a n e Ha Hn He Hlt. rewrite Ha, Hn, He in Hle. simpl in Hle.
        apply Z.leb_le in Hle. lia.
    + split; constructor; auto; cbn [line]; auto.
Qed.

Lemma disassemble_lines_are_mapped_witness :
  exists device,
    [ {| address := Some "8003"; instruction := Some "nop"; line := 1%Z |} ]
    = [] ++ device
    /\ length device = 1
    /\ Forall (fun r =>
                 line r = (-1)%Z
                 \/ ((0 <= line r < 3)%Z
                     /\ at_index ["8000"; "8003"; "8006"] (line r) = address r))
              device
    /\ Forall (fun r =>
                 forall a n e,
                   address r = Some a -> parseInt a 16 = Some n ->
                   Some 32774%Z = Some e -> (e < n)%Z -> line r = (-1)%Z)
              device.
Proof.
  refine (disassemble_lines_are_mapped
            {| results := []; lastAddress := Some 32774%Z; awaited := None |}
            [ {| matched := "8003: nop"; index := 0; input := "8003: nop";
                 groups := [("instruction", "nop"); ("address", "8003")] |} ]
            example_state ["8000"; "8003"; "8006"] _ eq_refl _).
  vm_compute. reflexivity.
Defined.

(** ** Greedy runs *)

Section GreedyFacts.

(** A greedy run of a class takes the whole run in front of a text that
    does not go on with the class, when what follows the pattern then
    succeeds. *)
Lemma iter_greedy :
  forall (cls : ascii -> bool) (k : cont) (body rest : string) (fuel pos : nat)
         (cs : captures) res,
    all_chars cls body = true ->
    starts_outside cls rest = true ->
    String.length body <= fuel ->
    k (pos + String.length body) rest cs = Some res ->
    iter (exec (Char cls)) k fuel pos (body ++ rest) cs = Some res.
Proof.
  intros cls k. induction body as [| c body IH]; intros rest fuel pos cs res Hall Hrest Hfuel Hk.
  - simpl in *. rewrite Nat.add_0_r in Hk. destruct fuel as [| fuel]; [exact Hk |].
    simpl. destruct rest as [| c rest]; [exact Hk |].
    simpl in Hrest. apply negb_true_iff in Hrest. now rewrite Hrest.
  - simpl in Hall. apply andb_true_iff in Hall. destruct Hall as [Hc Hall].
    destruct fuel as [| fuel]; [simpl in Hfuel; lia |].
    cbn [iter append exec]. rewrite Hc.
    replace (pos <? S pos)%nat with true by (symmetry; apply Nat.ltb_lt; lia).
    assert (E : iter (exec (Char cls)) k fuel (S pos) (body ++ rest) cs = Some res).
    { apply IH; auto.
      - simpl in Hfuel. lia.
      - rewrite <- Hk. f_equal. simpl. lia. }
    cbn [exec] in E. now rewrite E.
Qed.

Lemma exec_Star_greedy :
  forall (cls : ascii -> bool) (k : cont) (body rest : string) (pos : nat)
         (cs : captures) res,
    all_chars cls body = true ->
    starts_outside cls rest = true ->
    k (pos + String.length body) rest cs = Some res ->
    exec (Star (Char cls)) pos (body ++ rest) cs k = Some res.
Proof.
  intros cls k body rest pos cs res Hall Hrest Hk.
  change (iter (exec (Char cls)) k (String.length (body ++ rest)) pos (body ++ rest) cs
          = Some res).
  apply iter_greedy; auto. rewrite length_append. lia.
Qed.

Lemma exec_Named_greedy :
  forall (name : string) (cls : ascii -> bool) (k : cont) (body rest : string) (pos : nat)
         (cs : captures) res,
    all_chars cls body = true ->
    starts_outside cls rest = true ->
    k (pos + String.length body) rest ((name, body) :: cs) = Some res ->
    exec (Named name (Star (Char cls))) pos (body ++ rest) cs k = Some res.
Proof.
  intros name cls k body rest pos cs res Hall Hrest Hk.
  rewrite exec_Named. apply exec_Star_greedy; auto.
  replace (pos + String.length body - pos) with (String.length body) by lia.
  now rewrite substring_prefix.
Qed.

(** A match at the start of the input is the match [js_match] returns. *)
Lemma js_match_at_start :
  forall (r : regex) (s : string) (e : nat) (cs : captures),
    exec r 0 s [] accept = Some (e, cs) ->
    js_match s r
    = Some {| matched := substring 0 e s; index := 0; input := s; groups := cs |}.
Proof.
  intros r s e cs H. unfold js_match.
  assert (E : search r 0 s = Some (0, e, cs)) by (destruct s; simpl; now rewrite H).
  rewrite E. now rewrite Nat.sub_0_r.
Qed.

(** Promises created one after the other and settled in that order, behind
    the promises settled before them, are all settled. *)
Lemma await_all_settled :
  forall (st : State) (vs : list Resolution) (p : nat) (l : list (nat * Resolution)),
    settled st = l ++ combine (seq p (length vs)) vs ->
    (forall q, In q (map fst l) -> q < p) ->
    await_all (seq p (length vs)) st = Some vs.
Proof.
  intros st. induction vs as [| v vs IH]; intros p l Hs Hl; [reflexivity |].
  cbn [length seq await_all]. cbn [length seq combine] in Hs.
  assert (Hv : settled_value p (settled st) = Some v).
  { rewrite Hs. clear -Hl. induction l as [| [q w] l IHl]; simpl.
    - now rewrite Nat.eqb_refl.
    - destruct (Nat.eqb_spec q p) as [-> | _].
      + exfalso. specialize (Hl p (or_introl eq_refl)). lia.
      + apply IHl. intros q' Hq'. apply Hl. now right. }
  rewrite Hv. rewrite (IH (S p) (l ++ [(p, v)])).
  - reflexivity.
  - now rewrite <- app_assoc.
  - intros q Hq. rewrite map_app in Hq. apply in_app_or in Hq. simpl in Hq.
    destruct Hq as [Hq | [<- | []]]; [apply Hl in Hq |]; lia.
Qed.

Lemma await_all_waiting :
  forall (st : State) (ps : list nat) (p : nat),
    In p ps -> settled_value p (settled st) = None -> await_all ps st = None.
Proof.
  induction ps as [| q ps IH]; intros p Hin Hp; [contradiction |]. simpl.
  destruct Hin as [-> | Hin].
  - now rewrite Hp.
  - rewrite (IH p Hin Hp). now destruct (settled_value q (settled st)).
Qed.

End GreedyFacts.

(** ** The list of breakpoints *)

Section BreakpointFacts.

Lemma exec_Char_ok (cls : ascii -> bool) (c : ascii) (s : string) pos cs k :
  cls c = true -> exec (Char cls) pos (String c s) cs k = k (S pos) s cs.
Proof. intros H. simpl. now rewrite H. Qed.

Lemma exec_Char_fail (cls : ascii -> bool) (c : ascii) (s : string) pos cs k :
  cls c = false -> exec (Char cls) pos (String c s) cs k = None.
Proof. intros H. simpl. now rewrite H. Qed.

(** The search goes over the characters outside [0-9A-F]. *)
Lemma search_breakpoint_skip :
  forall (before s : string) (pos : nat),
    none_of upper_hex before = true ->
    search breakpointPattern pos (before ++ s)
    = search breakpointPattern (pos + String.length before) s.
Proof.
  induction before as [| c before IH]; intros s pos H.
  - simpl. now rewrite Nat.add_0_r.
  - unfold none_of in H. simpl in H. apply andb_true_iff in H. destruct H as [Hc H].
    apply negb_true_iff in Hc. cbn [append search].
    unfold breakpointPattern at 1, Plus. rewrite exec_Named, exec_Seq.
    rewrite exec_Char_fail by exact Hc.
    rewrite IH by exact H. f_equal. simpl. lia.
Qed.

Lemma breakpoint_noise :
  forall text, none_of upper_hex text = true -> js_match text breakpointPattern = None.
Proof.
  intros text H. unfold js_match.
  rewrite <- (append_nil_r text), search_breakpoint_skip by exact H.
  reflexivity.
Qed.

Lemma breakpoint_hit :
  forall before body after,
    none_of upper_hex before = true ->
    is_hex_text body = true ->
    starts_outside upper_hex after = true ->
    exists m,
      js_match (before ++ body ++ after) breakpointPattern = Some m
      /\ group m "breakpoint" = Some body.
Proof.
  intros before body after Hb Hbody Ha. unfold js_match.
  rewrite search_breakpoint_skip by exact Hb.
  destruct body as [| c body]; [discriminate |].
  simpl in Hbody. apply andb_true_iff in Hbody. destruct Hbody as [Hc Hbody].
  cbn [append search].
  unfold breakpointPattern at 1, Plus. rewrite exec_Named, exec_Seq.
  rewrite exec_Char_ok by exact Hc.
  rewrite (exec_Star_greedy upper_hex _ body after _ _
             (S (0 + String.length before) + String.length body,
              [("breakpoint", String c body)])); auto.
  - eexists. split; reflexivity.
  - unfold accept. do 3 f_equal.
    replace (S (0 + String.length before) + String.length body - (0 + String.length before))
      with (S (String.length body)) by lia.
    cbn [substring]. now rewrite substring_prefix.
Qed.

Lemma collect_rows :
  forall rows,
    Forall (fun r => row_ok r = true) rows ->
    map (fun m => group m "breakpoint") (collect breakpointPattern (map row_text rows))
    = map Some (hits rows).
Proof.
  induction rows as [| r rows IH]; intros H; [reflexivity |].
  inversion H as [| ? ? Hr Hrows]; subst. specialize (IH Hrows).
  destruct r as [text | before body after]; simpl in Hr |- *.
  - now rewrite (breakpoint_noise text Hr).
  - apply andb_true_iff in Hr. destruct Hr as [Hr Ha].
    apply andb_true_iff in Hr. destruct Hr as [Hb Hbody].
    destruct (breakpoint_hit before body after Hb Hbody Ha) as [m [E G]].
    rewrite E. simpl. now rewrite G, IH.
Qed.

End BreakpointFacts.

(** X11. [getBreakpoints] writes [brl]; once the echo, the lines of the
    device and the prompt have arrived it returns, for every line that
    holds a character of [0-9A-F], the last line of the line map whose
    address is the first run of such characters in that line (-1 when no
    line has that address), in the order of the lines. Lines without such
    a character are ignored. *)
Theorem getBreakpoints_reads_first_runs :
  forall (st : State) (lm : list string) (echo : string) (rows : list Row)
         (prompt : string),
    consistent st -> matchers st = [] -> outputBuffer st = [] ->
    lineMap st = Some lm ->
    js_match echo carriageReturn <> None ->
    Forall (fun r => row_ok r = true /\ js_match (row_text r) interactive = None) rows ->
    js_match prompt interactive <> None ->
    exists p st1 st2,
      getBreakpoints_send st = Some (p, st1)
      /\ written st1 = written st ++ [command_line ["brl"]]
      /\ feed_all (echo :: map row_text rows ++ [prompt]) st1 = Some st2
      /\ getBreakpoints_await p st2
         = Some (map (fun body => lastIndexOf lm (Some body)) (hits rows)).
Proof.
  intros st lm echo rows prompt Hc Hq Hb Hlm Hecho Hrows Hprompt.
  destruct (js_match echo carriageReturn) as [cr |] eqn:Ecr; [clear Hecho | congruence].
  set (mk := fun p => MultiMatcher breakpointPattern p []).
  set (st0 := sendCommand "brl" [] st).
  assert (E1 : getBreakpoints_send st = Some (promises st, registered mk st0)).
  { unfold getBreakpoints_send, matchUntilInteractive, queue, drain. fold mk st0.
    subst st0. cbn [matchers outputBuffer promises set_matchers set_promises sendCommand
                    set_written]. now rewrite Hq, Hb. }
  rewrite E1. exists (promises st), (registered mk st0). eexists.
  split; [reflexivity |]. split; [reflexivity |].
  rewrite (multi_exchange (registered mk st0) breakpointPattern (promises st) [] echo cr
             (map row_text rows) prompt); auto.
  - split; [reflexivity |].
    unfold getBreakpoints_await.
    cbn [settled set_matchers call_resolve set_settled registered set_outputBuffer
         set_promises sendCommand set_written st0].
    rewrite settled_value_app.
    + unfold getBreakpoints_return.
      cbn [lineMap set_matchers call_resolve set_settled registered set_outputBuffer
           set_promises sendCommand set_written st0].
      rewrite Hlm.
      assert (Hrows' : Forall (fun r => row_ok r = true) rows)
        by (eapply Forall_impl; [| exact Hrows]; intros r [H _]; exact H).
      pose proof (collect_rows rows Hrows') as Hmap.
      destruct (collect breakpointPattern (map row_text rows)) as [| m ms] eqn:Ec.
      * simpl in Hmap. destruct (hits rows); [reflexivity | discriminate].
      * f_equal. rewrite <- (map_map (fun m => group m "breakpoint") (lastIndexOf lm)).
        rewrite Hmap. now rewrite map_map.
    + intros Hin. apply (consistent_settled_lt st _ Hc) in Hin. lia.
  - clear -Hrows. induction Hrows as [| r rows [_ Hr] _ IH]; simpl; constructor; auto.
Qed.

Lemma getBreakpoints_reads_first_runs_witness :
  exists p st1 st2,
    getBreakpoints_send example_state = Some (p, st1)
    /\ written st1 = [] ++ [command_line ["brl"]]
    /\ feed_all (("brl" ++ CRLF)%string
                   :: map row_text [Hit "" "8003" CRLF; Noise CRLF; Hit "at " "8006" CRLF]
                   ++ [ "> " ]) st1 = Some st2
    /\ getBreakpoints_await p st2
       = Some (map (fun body => lastIndexOf ["8000"; "8003"; "8006"] (Some body))
                 (hits [Hit "" "8003" CRLF; Noise CRLF; Hit "at " "8006" CRLF])).
Proof.
  refine (getBreakpoints_reads_first_runs example_state ["8000"; "8003"; "8006"]
            ("brl" ++ CRLF)%string
            [Hit "" "8003" CRLF; Noise CRLF; Hit "at " "8006" CRLF] "> " _ _ _ _ _ _ _).
  - reflexivity.
  - reflexivity.
  - reflexivity.
  - reflexivity.
  - vm_compute. discriminate.
  - repeat constructor.
  - vm_compute. discriminate.
Defined.

(** ** The register snapshot *)

Section RegisterFacts.

(** A pattern of [fields] matches the text of its labels and values at
    its start and captures every value under its name. *)
Lemma exec_fields :
  forall (fs : list (string * string)) (vals : list string) (rest : string)
         (pos : nat) (cs : captures) (k : cont) res,
    length vals = length fs ->
    Forall (fun v => all_chars upper_hex v = true) vals ->
    well_separated fs vals rest = true ->
    k (pos + String.length (fields_text fs vals)) rest
      (rev (combine (map snd fs) vals) ++ cs) = Some res ->
    exec (fields fs) pos (fields_text fs vals ++ rest) cs k = Some res.
Proof.
  induction fs as [| [label name] fs IH]; intros vals rest pos cs k res Hlen Hall Hsep Hk.
  - destruct vals; [| discriminate]. simpl in *. now rewrite Nat.add_0_r in Hk.
  - destruct vals as [| v vals]; [discriminate |].
    inversion Hall as [| ? ? Hv Hall']; subst.
    cbn [well_separated] in Hsep. apply andb_true_iff in Hsep. destruct Hsep as [Hnext Hsep].
    cbn [fields fields_text]. rewrite !append_assoc, exec_Seq, exec_Lit, exec_Seq.
    apply exec_Named_greedy; auto.
    apply IH; auto.
    rewrite <- Hk. cbn [fields_text map snd combine rev]. rewrite <- app_assoc.
    cbn [app]. f_equal. rewrite !length_append. lia.
Qed.

Lemma js_match_fields :
  forall (fs : list (string * string)) (vals : list string) (rest : string),
    length vals = length fs ->
    Forall (fun v => all_chars upper_hex v = true) vals ->
    well_separated fs vals rest = true ->
    exists m,
      js_match (fields_text fs vals ++ rest) (fields fs) = Some m
      /\ groups m = rev (combine (map snd fs) vals).
Proof.
  intros fs vals rest Hlen Hall Hsep.
  eexists. split.
  - apply js_match_at_start. apply exec_fields; auto. unfold accept. reflexivity.
  - simpl. now rewrite app_nil_r.
Qed.

End RegisterFacts.

(** X12. [continue], [variables] and [next] write g, r and s. In a quiet
    state with a line map, when the line of the first pattern, the line of
    the second and a chunk with the prompt arrive, each field of the
    snapshot returned is the text printed for it, as it was printed, and
    [line] is the last line of the line map whose address is the text of
    PC. A field printed empty is the empty text. *)
Theorem parseRegisters_round_trip :
  forall (op : State -> option (list nat * State)) (command : string)
         (st : State) (lm : list string)
         (a b sp ie dph dpl psw pc r0 r1 r2 r3 r4 r5 r6 r7 bank : string)
         (rest1 rest2 pre post : string),
    In (op, command) [(continue_send, "g"); (variables_send, "r"); (next_send, "s")] ->
    consistent st -> matchers st = [] -> outputBuffer st = [] ->
    lineMap st = Some lm ->
    Forall (fun v => all_chars upper_hex v = true)
           [a; b; sp; ie; dph; dpl; psw; pc; r0; r1; r2; r3; r4; r5; r6; r7; bank] ->
    starts_outside upper_hex rest1 = true ->
    starts_outside upper_hex rest2 = true ->
    exists ps st1 st2,
      op st = Some (ps, st1)
      /\ written st1 = written st ++ [command_line [command]]
      /\ feed_all
           [ (fields_text registerFields1 [a; b; sp; ie; dph; dpl; psw; pc] ++ rest1)%string;
             (fields_text registerFields2 [r0; r1; r2; r3; r4; r5; r6; r7; bank]
                ++ rest2)%string;
             (pre ++ "> " ++ post)%string ] st1 = Some st2
      /\ parseRegisters_await ps st2
         = Some {| Snapshot.a := Some a; Snapshot.b := Some b; Snapshot.sp := Some sp;
                   Snapshot.ie := Some ie; Snapshot.dph := Some dph;
                   Snapshot.dpl := Some dpl; Snapshot.psw := Some psw;
                   Snapshot.pc := Some pc;
                   Snapshot.r0 := Some r0; Snapshot.r1 := Some r1; Snapshot.r2 := Some r2;
                   Snapshot.r3 := Some r3; Snapshot.r4 := Some r4; Snapshot.r5 := Some r5;
                   Snapshot.r6 := Some r6; Snapshot.r7 := Some r7;
                   Snapshot.bank := Some bank;
                   Snapshot.line := lastIndexOf lm (Some pc) |}.
Proof.
  intros op command st lm a b sp ie dph dpl psw pc r0 r1 r2 r3 r4 r5 r6 r7 bank
         rest1 rest2 pre post Hop Hc Hq Hb Hlm Hall H1 H2.
  assert (Eop : op st = parseRegisters_send (sendCommand command [] st)).
  { simpl in Hop. destruct Hop as [E | [E | [E | []]]]; inversion E; reflexivity. }
  rewrite Eop. clear Hop Eop op.
  set (st0 := sendCommand command [] st).
  destruct (js_match_fields registerFields1 [a; b; sp; ie; dph; dpl; psw; pc] rest1)
    as [m1 [E1 G1]].
  { reflexivity. }
  { repeat (match goal with H : Forall _ (_ :: _) |- _ => inversion H; clear H; subst end).
    repeat constructor; assumption. }
  { cbn [well_separated registerFields1 fields_text append starts_outside upper_hex].
    rewrite H1. reflexivity. }
  destruct (js_match_fields registerFields2 [r0; r1; r2; r3; r4; r5; r6; r7; bank] rest2)
    as [m2 [E2 G2]].
  { reflexivity. }
  { repeat (match goal with H : Forall _ (_ :: _) |- _ => inversion H; clear H; subst end).
    repeat constructor; assumption. }
  { cbn [well_separated registerFields2 fields_text append starts_outside upper_hex].
    rewrite H2. reflexivity. }
  destruct (has_prompt pre post) as [m3 E3].
  unfold parseRegisters_send.
  rewrite (matchResponse_queues _ st0) by exact Hb.
  cbn [matchers st0 sendCommand set_written]. rewrite Hq. cbn [app length seq].
  set (st1 := set_promises _ _).
  destruct (singles_settle [registersPattern1; registersPattern2; interactive]
              [ ((fields_text registerFields1 [a; b; sp; ie; dph; dpl; psw; pc] ++ rest1)%string,
                 m1);
                ((fields_text registerFields2 [r0; r1; r2; r3; r4; r5; r6; r7; bank]
                    ++ rest2)%string, m2);
                ((pre ++ "> " ++ post)%string, m3) ] st1 (promises st))
    as [st2 [Ef [_ Hs]]].
  { reflexivity. }
  { repeat constructor; assumption. }
  cbn [map fst] in Ef.
  eexists. exists st1, st2. split; [reflexivity |]. split; [reflexivity |].
  split; [exact Ef |].
  unfold parseRegisters_await.
  match goal with
  | |- context [await_all ?ps st2] =>
      replace (await_all ps st2) with (Some [One m1; One m2; One m3])
  end.
  - unfold parseRegisters_return.
    assert (Hlm2 : lineMap st2 = Some lm).
    { apply feed_all_frame in Ef. destruct Ef as [_ [_ [Hl _]]]. rewrite Hl. exact Hlm. }
    rewrite Hlm2. unfold group. rewrite G1, G2. reflexivity.
  - symmetry.
    apply (await_all_settled st2 [One m1; One m2; One m3] (promises st) (settled st)).
    + rewrite Hs. reflexivity.
    + intros q Hin. apply (consistent_settled_lt st _ Hc) in Hin. exact Hin.
Qed.

Lemma parseRegisters_round_trip_witness :
  exists ps st1 st2,
    variables_send example_state = Some (ps, st1)
    /\ written st1 = [] ++ [command_line ["r"]]
    /\ feed_all
         [ (fields_text registerFields1 ["1F"; "00"; "07"; "00"; "80"; "03"; "01"; "8003"]
              ++ CRLF)%string;
           (fields_text registerFields2 ["00"; "01"; "02"; "03"; "04"; "05"; "06"; "07"; "00"]
              ++ CRLF)%string;
           ("" ++ "> " ++ "")%string ] st1 = Some st2
    /\ parseRegisters_await ps st2
       = Some {| Snapshot.a := Some "1F"; Snapshot.b := Some "00"; Snapshot.sp := Some "07";
                 Snapshot.ie := Some "00"; Snapshot.dph := Some "80";
                 Snapshot.dpl := Some "03"; Snapshot.psw := Some "01";
                 Snapshot.pc := Some "8003";
                 Snapshot.r0 := Some "00"; Snapshot.r1 := Some "01"; Snapshot.r2 := Some "02";
                 Snapshot.r3 := Some "03"; Snapshot.r4 := Some "04"; Snapshot.r5 := Some "05";
                 Snapshot.r6 := Some "06"; Snapshot.r7 := Some "07";
                 Snapshot.bank := Some "00";
                 Snapshot.line := lastIndexOf ["8000"; "8003"; "8006"] (Some "8003") |}.
Proof.
  refine (parseRegisters_round_trip variables_send "r" example_state
            ["8000"; "8003"; "8006"]
            "1F" "00" "07" "00" "80" "03" "01" "8003"
            "00" "01" "02" "03" "04" "05" "06" "07" "00" CRLF CRLF "" "" _ _ _ _ _ _ _ _).
  - right. left. reflexivity.
  - reflexivity.
  - reflexivity.
  - reflexivity.
  - reflexivity.
  - repeat constructor.
  - reflexivity.
  - reflexivity.
Defined.

(** ** The line map of a well-formed listing *)

Section ListingFacts.

Import ParseLst.

Lemma spaces_S (n : nat) : spaces (S n) = String " " (spaces n).
Proof. unfold spaces. destruct n; reflexivity. Qed.

Lemma spaces_all (n : nat) : all_chars (Ascii.eqb " ") (spaces n) = true.
Proof.
  induction n as [| n IH]; [reflexivity |]. rewrite spaces_S. simpl. exact IH.
Qed.

Lemma digit_not_space (c : ascii) : digit c = true -> Ascii.eqb " " c = false.
Proof.
  intros H. destruct (Ascii.eqb_spec " " c) as [<- | _]; [discriminate | reflexivity].
Qed.

Lemma parseInt_nonempty (d : string) (n : Z) : parseInt d 10 = Some n -> d <> "".
Proof. intros H ->. discriminate. Qed.

(** The tail of the pattern on the text after the address. *)
Lemma exec_tail :
  forall (bytes digits text : string) (gap pos : nat) (cs : captures),
    all_chars upper_hex bytes = true ->
    all_chars digit digits = true ->
    digits <> "" ->
    starts_outside digit text = true ->
    exec tail pos (" " ++ bytes ++ spaces (S gap) ++ digits ++ text) cs accept
    = Some (S pos + String.length bytes + String.length (spaces (S gap))
            + String.length digits,
            ("line", digits) :: cs).
Proof.
  intros bytes digits text gap pos cs Hb Hd Hne Ht.
  unfold tail. cbn [append]. rewrite exec_Seq.
  unfold space at 1. rewrite exec_Char_ok by reflexivity.
  rewrite exec_Seq. unfold Opt. rewrite exec_Alt.
  set (res := (S pos + String.length bytes + String.length (spaces (S gap))
               + String.length digits, ("line", digits) :: cs)).
  assert (E : exec (Star hexc) (S pos) (bytes ++ spaces (S gap) ++ digits ++ text) cs
                (fun p' s' cs' =>
                   exec (Seq (Star space) (Named "line" (Star (Char digit)))) p' s' cs' accept)
              = Some res).
  { apply exec_Star_greedy; [exact Hb | now rewrite spaces_S |].
    rewrite exec_Seq. apply exec_Star_greedy; [apply spaces_all | |].
    - destruct digits as [| c digits]; [congruence |].
      simpl in Hd. apply andb_true_iff in Hd. destruct Hd as [Hc _].
      cbn [append starts_outside]. now rewrite (digit_not_space c Hc).
    - apply exec_Named_greedy; [exact Hd | exact Ht |]. reflexivity. }
  now rewrite E.
Qed.

(** A well-formed line matches the pattern at its start, with its address
    and its digits in the groups. *)
Lemma lst_line_match :
  forall (r : LstLine) (n : Z),
    lst_line_ok r n ->
    exists m,
      js_match (lst_line r) pattern = Some m
      /\ group m "address" = Some (l_address r)
      /\ group m "line" = Some (l_digits r).
Proof.
  intros [addr bytes gap digits text] n [Ha [Hb [Hd [Hn Ht]]]]. simpl in *.
  unfold lst_line. cbn [l_address l_bytes l_gap l_digits l_text].
  destruct addr as [| a1 [| a2 [| a3 [| a4 [| a5 addr]]]]]; try discriminate.
  simpl in Ha. apply andb_true_iff in Ha. destruct Ha as [Ha H4].
  apply andb_true_iff in Ha. destruct Ha as [Ha H3].
  apply andb_true_iff in Ha. destruct Ha as [H1 H2].
  eexists. split.
  - apply js_match_at_start. unfold pattern. rewrite exec_Seq, exec_Named.
    unfold hex4, hexc. cbn [append].
    repeat (first [rewrite exec_Seq | rewrite exec_Char_ok by assumption]; cbv beta).
    replace (4 - 0) with 4 by reflexivity.
    apply (exec_tail bytes digits text gap 4); auto.
    now apply (parseInt_nonempty digits n).
  - split; reflexivity.
Qed.

Lemma scan_skip :
  forall (ls r : list string) (lm : list string) (last : number),
    Forall (fun l => js_match l pattern = None) ls ->
    scan (ls ++ r) lm last = scan r lm last.
Proof.
  induction ls as [| l ls IH]; intros r lm last H; [reflexivity |].
  inversion H as [| ? ? Hl Hls]; subst. simpl. rewrite Hl. now apply IH.
Qed.

Lemma indices_snoc (f : Z) (n : nat) :
  indices f (S n) = indices f n ++ [(f + Z.of_nat n)%Z].
Proof. unfold indices. now rewrite seq_S, map_app. Qed.

(** The scan of a block of well-formed lines with consecutive numbers,
    from its last line to its first, takes the address of each. *)
Lemma scan_rows :
  forall (rows : list LstLine) (f : Z) (lm : list string) (last : number)
         (r : list string),
    Forall2 lst_line_ok rows (indices f (length rows)) ->
    rows <> [] ->
    last = Some (-1)%Z \/ last = Some (f + Z.of_nat (length rows))%Z ->
    scan (rev (map lst_line rows) ++ r) lm last
    = scan r (map l_address rows ++ lm) (Some f).
Proof.
  induction rows as [| row rows IH] using rev_ind; intros f lm last r Hok Hne Hlast;
    [congruence |].
  rewrite length_app in Hok, Hlast. simpl in Hok, Hlast.
  rewrite Nat.add_1_r in Hok, Hlast. rewrite indices_snoc in Hok.
  apply Forall2_app_inv_l in Hok.
  destruct Hok as [ns1 [ns2 [Hrows [Hrow Hsplit]]]].
  apply app_eq_length in Hsplit;
    [| unfold indices; rewrite length_map, length_seq;
       exact (Forall2_length Hrows)].
  destruct Hsplit as [<- <-].
  inversion Hrow as [| ? ? ? ? Hrow1 _]; subst. clear Hrow.
  destruct (lst_line_match row _ Hrow1) as [m [Em [Ga Gl]]].
  destruct Hrow1 as [_ [_ [_ [Hn _]]]].
  rewrite map_app, rev_app_distr. cbn [map rev app scan].
  rewrite Em, Gl, Hn, Ga.
  replace (num_neq last (Some (-1)%Z)
           && num_neq (Some (f + Z.of_nat (length rows))%Z)
                (option_map (fun z : Z => (z - 1)%Z) last)) with false.
  - rewrite map_app, <- app_assoc. cbn [map app].
    destruct rows as [| row0 rows0].
    + simpl. now rewrite Z.add_0_r.
    + apply IH; [exact Hrows | discriminate | now right].
  - symmetry. destruct Hlast as [-> | ->]; simpl.
    + reflexivity.
    + apply andb_false_iff. right. apply negb_false_iff. apply Z.eqb_eq. lia.
Qed.

End ListingFacts.

(** X13. When the listing ends with a block of well-formed lines whose
    numbers are consecutive, from [f] on, followed only by lines the
    pattern does not match, and what comes before the block is nothing the
    pattern matches or ends with a matching line whose number is not
    [f - 1], the line map is [f - 1] entries 0000 followed by the addresses
    of the block in order: the address of the line numbered [n] is at index
    [n - 1]. *)
Theorem parseLst_indexes_by_line :
  forall (data : string) (pre post : list string) (rows : list LstLine) (f : Z),
    split_crlf data = pre ++ map lst_line rows ++ post ->
    rows <> [] -> (1 <= f)%Z ->
    Forall2 lst_line_ok rows (indices f (length rows)) ->
    Forall (fun l => js_match l ParseLst.pattern = None) post ->
    Forall (fun l => js_match l ParseLst.pattern = None) pre
    \/ (exists pre0 l0 skipped,
           pre = pre0 ++ l0 :: skipped
           /\ Forall (fun l => js_match l ParseLst.pattern = None) skipped
           /\ js_match l0 ParseLst.pattern <> None
           /\ num_neq (line_number l0) (Some (f - 1)%Z) = true) ->
    ParseLst.lineMap_of data = repeat "0000" (Z.to_nat (f - 1)) ++ map l_address rows
    /\ forall (k : nat) (row : LstLine),
         nth_error rows k = Some row ->
         at_index (ParseLst.lineMap_of data) (f + Z.of_nat k - 1) = Some (l_address row).
Proof.
  intros data pre post rows f Hsplit Hne Hf Hrows Hpost Hpre.
  assert (Hmap : ParseLst.lineMap_of data
                 = repeat "0000" (Z.to_nat (f - 1)) ++ map l_address rows).
  { unfold ParseLst.lineMap_of. rewrite Hsplit, !rev_app_distr, <- app_assoc.
    rewrite scan_skip by (apply Forall_rev; exact Hpost).
    rewrite (scan_rows rows f [] (Some (-1)%Z)); auto.
    rewrite app_nil_r.
    assert (Hscan : ParseLst.scan (rev pre) (map l_address rows) (Some f)
                    = (map l_address rows, Some f)).
    { destruct Hpre as [Hpre | [pre0 [l0 [skipped [-> [Hsk [Hm Hnum]]]]]]].
      - rewrite <- (app_nil_r (rev pre)).
        rewrite scan_skip by (apply Forall_rev; exact Hpre). reflexivity.
      - rewrite rev_app_distr. cbn [rev]. rewrite <- app_assoc.
        rewrite scan_skip by (apply Forall_rev; exact Hsk).
        cbn [app ParseLst.scan]. unfold line_number in Hnum.
        destruct (js_match l0 ParseLst.pattern) as [m0 |]; [| congruence].
        destruct (group m0 "address"); [| reflexivity].
        cbn [option_map]. rewrite Hnum.
        replace (num_neq (Some f) (Some (-1)%Z)) with true; [reflexivity |].
        symmetry. simpl. apply negb_true_iff. apply Z.eqb_neq. lia. }
    rewrite Hscan. now apply pad_spec. }
  split; [exact Hmap |].
  intros k row Hk. rewrite Hmap.
  replace (f + Z.of_nat k - 1)%Z with (Z.of_nat (Z.to_nat (f - 1) + k)) by lia.
  rewrite at_index_nat, nth_error_app2 by (rewrite repeat_length; lia).
  rewrite repeat_length.
  replace (Z.to_nat (f - 1) + k - Z.to_nat (f - 1)) with k by lia.
  now rewrite nth_error_map, Hk.
Qed.

Lemma parseLst_indexes_by_line_witness :
  ParseLst.lineMap_of listing
  = repeat "0000" (Z.to_nat (1 - 1))
    ++ map l_address
         [ {| l_address := "0000"; l_bytes := ""; l_gap := 12; l_digits := "1";
              l_text := "   org 0" |};
           {| l_address := "0000"; l_bytes := "7401"; l_gap := 8; l_digits := "2";
              l_text := "   mov a, #1" |};
           {| l_address := "0002"; l_bytes := "80FE"; l_gap := 8; l_digits := "3";
              l_text := "   sjmp $" |} ].
Proof.
  refine (proj1 (parseLst_indexes_by_line listing []
                   ["                  4   end"; ""]
                   [ {| l_address := "0000"; l_bytes := ""; l_gap := 12; l_digits := "1";
                        l_text := "   org 0" |};
                     {| l_address := "0000"; l_bytes := "7401"; l_gap := 8; l_digits := "2";
                        l_text := "   mov a, #1" |};
                     {| l_address := "0002"; l_bytes := "80FE"; l_gap := 8; l_digits := "3";
                        l_text := "   sjmp $" |} ] 1 _ _ _ _ _ _)).
  - vm_compute. reflexivity.
  - discriminate.
  - lia.
  - repeat constructor.
  - repeat constructor.
  - left. constructor.
Defined.

(** ** The script of [setBreakpoints] *)

Section ScriptFacts.

Lemma singles_app (a b : list regex) (p : nat) :
  singles (a ++ b) p = singles a p ++ singles b (p + length a).
Proof.
  revert p. induction a as [| x a IH]; intros p; simpl.
  - now rewrite Nat.add_0_r.
  - rewrite IH. do 3 f_equal. lia.
Qed.

(** As [singles_settle], with more matchers behind. *)
Lemma singles_settle_rest :
  forall patterns served st p rest,
    matchers st = singles patterns p ++ rest ->
    Forall2 (fun pattern lm => js_match (fst lm) pattern = Some (snd lm)) patterns served ->
    exists st',
      feed_all (map fst served) st = Some st'
      /\ matchers st' = rest
      /\ settled st'
         = settled st ++ combine (seq p (length patterns)) (map (fun lm => One (snd lm)) served).
Proof.
  induction patterns as [| pattern patterns IH]; intros served st p rest Hq H;
    inversion H as [| ? [l m] ? served' Hm H']; subst.
  - exists st. simpl. now rewrite app_nil_r.
  - simpl in Hq, Hm. cbn [map fst feed_all].
    rewrite (single_hit _ _ _ _ _ _ Hq Hm).
    destruct (IH served'
                (set_matchers (singles patterns (S p) ++ rest) (call_resolve p (One m) st))
                (S p) rest) as [st' [E [Hq' Hs']]]; [reflexivity | exact H' |].
    exists st'. split; [exact E |]. split; [exact Hq' |].
    rewrite Hs'. simpl. now rewrite <- app_assoc.
Qed.

(** Chunks that hold the prompt serve as many expectations of it. *)
Lemma prompts_served :
  forall prompts,
    Forall (fun c => js_match c interactive <> None) prompts ->
    exists served,
      map fst served = prompts
      /\ Forall2 (fun pattern lm => js_match (fst lm) pattern = Some (snd lm))
                 (repeat interactive (length prompts)) served.
Proof.
  induction prompts as [| c prompts IH]; intros H.
  - exists []. split; [reflexivity | constructor].
  - inversion H as [| ? ? Hc Hrest]; subst. destruct (IH Hrest) as [served [Hm Hf]].
    destruct (js_match c interactive) as [m |] eqn:E; [| congruence].
    exists ((c, m) :: served). split; [simpl; now rewrite Hm |].
    simpl. constructor; [exact E | exact Hf].
Qed.

Lemma combine_fst_in {A B : Type} (l : list A) (l' : list B) (x : A) :
  In x (map fst (combine l l')) -> In x l.
Proof.
  revert l'. induction l as [| y l IH]; intros [| y' l'] H; simpl in *; try contradiction.
  destruct H as [-> | H]; [now left | right; eauto].
Qed.

Lemma sendBreakpoints_written :
  forall (addresses : list (option string)) (st : State),
    written (sendBreakpoints addresses st)
    = written st
      ++ map (fun a => command_line ["bron"; match a with Some v => v | None => "" end])
           addresses.
Proof.
  unfold sendBreakpoints.
  induction addresses as [| a addresses IH]; intros st; simpl.
  - now rewrite app_nil_r.
  - rewrite IH. simpl. now rewrite <- app_assoc.
Qed.

Lemma sendBreakpoints_queue :
  forall (addresses : list (option string)) (st : State),
    matchers (sendBreakpoints addresses st) = matchers st
    /\ outputBuffer (sendBreakpoints addresses st) = outputBuffer st
    /\ settled (sendBreakpoints addresses st) = settled st
    /\ promises (sendBreakpoints addresses st) = promises st
    /\ lineMap (sendBreakpoints addresses st) = lineMap st
    /\ instructionList (sendBreakpoints addresses st) = instructionList st
    /\ file (sendBreakpoints addresses st) = file st.
Proof.
  unfold sendBreakpoints.
  induction addresses as [| a addresses IH]; intros st; simpl; [repeat split |].
  destruct (IH (sendCommand "bron" [a] st)) as [H1 [H2 [H3 [H4 [H5 [H6 H7]]]]]].
  repeat split; assumption.
Qed.

End ScriptFacts.

(** X14. With the line map in place and in a quiet state, [setBreakpoints]
    writes [brc] and then one [bron] per requested line, in order, with the
    address of the line, and awaits one prompt per command written: it is
    still waiting after as many chunks with the prompt as lines requested,
    and the next one completes it with the lines reported back. *)
Theorem setBreakpoints_script :
  forall (readFile : string -> option string) (path : string) (lines : list Z)
         (st : State) (lm : list string) (prompts : list string),
    consistent st -> matchers st = [] -> outputBuffer st = [] ->
    lineMap st = Some lm ->
    Forall (fun c => js_match c interactive <> None) prompts ->
    length prompts = length lines + 1 ->
    let addresses := map (breakpointAddress lm) lines in
    exists ps st1 st2,
      setBreakpoints_send readFile path lines st = Some (Returned (addresses, ps, st1))
      /\ written st1
         = written st
           ++ command_line ["brc"]
              :: map (fun a => command_line
                                 ["bron"; match a with Some v => v | None => "" end])
                   addresses
      /\ (forall k, k <= length lines ->
            exists st_k,
              feed_all (firstn k prompts) st1 = Some st_k
              /\ setBreakpoints_await addresses ps st_k = None)
      /\ feed_all prompts st1 = Some st2
      /\ setBreakpoints_await addresses ps st2 = Some (map (lastIndexOf lm) addresses)
      /\ matchers st2 = []
      /\ written st2 = written st1.
Proof.
  intros readFile path lines st lm prompts Hc Hq Hb Hlm Hprompts Hlen addresses.
  unfold setBreakpoints_send. cbn [lineMap set_file]. rewrite Hlm. fold addresses.
  set (il := map (fun a => parseInt a 16) (dedup [] lm)).
  set (st0 := sendBreakpoints addresses (sendCommand "brc" [] (set_maps lm il (set_file path st)))).
  destruct (sendBreakpoints_queue addresses
              (sendCommand "brc" [] (set_maps lm il (set_file path st))))
    as [Hq0 [Hb0 [Hs0 [Hp0 [Hl0 _]]]]].
  fold st0 in Hq0, Hb0, Hs0, Hp0, Hl0. cbn in Hq0, Hb0, Hs0, Hp0, Hl0.
  assert (Hn : length addresses = length lines) by (unfold addresses; apply length_map).
  rewrite (matchResponse_queues _ st0) by (rewrite Hb0; exact Hb).
  rewrite Hq0, Hq, Hp0, repeat_length, Hn. cbn [app].
  set (n1 := length lines + 1).
  set (st1 := set_promises _ _).
  assert (Hw1 : written st1
                = written st
                  ++ command_line ["brc"]
                     :: map (fun a => command_line
                                        ["bron"; match a with Some v => v | None => "" end])
                          addresses).
  { subst st1 st0. cbn [written set_promises set_matchers].
    rewrite sendBreakpoints_written. cbn [written sendCommand set_written set_maps set_file].
    now rewrite <- app_assoc. }
  assert (Hold : forall q, In q (map fst (settled st)) -> q < promises st)
    by (intros q Hin; now apply (consistent_settled_lt st q Hc)).
  destruct (prompts_served prompts Hprompts) as [served [Hserved Hf]].
  rewrite Hlen in Hf. fold n1 in Hf.
  destruct (singles_settle (repeat interactive n1) served st1 (promises st))
    as [st2 [Ef [Hq2 Hs2]]]; [reflexivity | exact Hf |].
  rewrite Hserved in Ef.
  exists (seq (promises st) n1), st1, st2.
  split; [reflexivity |]. split; [exact Hw1 |]. split; [| split; [exact Ef | split; [| split]]].
  - intros k Hk.
    assert (Hk1 : k <= n1) by (unfold n1; lia).
    assert (Hsplit : repeat interactive n1
                     = repeat interactive k ++ repeat interactive (n1 - k)).
    { rewrite <- repeat_app. f_equal. lia. }
    assert (Hfk : Forall2 (fun pattern lm => js_match (fst lm) pattern = Some (snd lm))
                    (repeat interactive k) (firstn k served)).
    { clear -Hf Hk1. revert k Hk1 served Hf. induction n1 as [| n IH]; intros k Hk served Hf.
      - assert (k = 0) by lia. subst. constructor.
      - destruct k as [| k]; [constructor |].
        simpl in Hf. inversion Hf; subst. simpl. constructor; [assumption |].
        apply IH; [lia | assumption]. }
    destruct (singles_settle_rest (repeat interactive k) (firstn k served) st1 (promises st)
                (singles (repeat interactive (n1 - k)) (promises st + k)))
      as [st_k [Efk [_ Hsk]]]; [| exact Hfk |].
    { subst st1. cbn [matchers set_promises set_matchers].
      rewrite Hsplit, singles_app, repeat_length. reflexivity. }
    rewrite <- Hserved, <- firstn_map in *. rewrite Efk.
    exists st_k. split; [reflexivity |].
    unfold setBreakpoints_await.
    rewrite (await_all_waiting st_k (seq (promises st) n1) (promises st + length lines)).
    + reflexivity.
    + apply in_seq. unfold n1. lia.
    + apply settled_value_None. rewrite Hsk, map_app. intros Hin. apply in_app_or in Hin.
      destruct Hin as [Hin | Hin].
      * subst st1. cbn [settled set_promises set_matchers] in Hin. rewrite Hs0 in Hin.
        apply Hold in Hin. lia.
      * apply combine_fst_in in Hin. apply in_seq in Hin. rewrite repeat_length in Hin. lia.
  - unfold setBreakpoints_await.
    assert (Ha : await_all (seq (promises st) n1) st2
                 = Some (map (fun lm => One (snd lm)) served)).
    { replace n1 with (length (map (fun lm : string * RegExpMatchArray => One (snd lm)) served)).
      - apply (await_all_settled st2 _ (promises st) (settled st)); [| exact Hold].
        rewrite Hs2. subst st1. cbn [settled set_promises set_matchers]. rewrite Hs0.
        rewrite repeat_length, length_map.
        replace (length served) with n1; [reflexivity |].
        rewrite <- (length_map fst served), Hserved, Hlen. reflexivity.
      - rewrite length_map, <- (length_map fst served), Hserved, Hlen. reflexivity. }
    rewrite Ha. unfold setBreakpoints_return.
    apply feed_all_frame in Ef. destruct Ef as [_ [_ [Hl2 _]]]. rewrite Hl2.
    subst st1. cbn [lineMap set_promises set_matchers]. rewrite Hl0. reflexivity.
  - exact Hq2.
  - apply feed_all_frame in Ef. destruct Ef as [_ [_ [_ [_ [_ Hw2]]]]]. exact Hw2.
Qed.

Lemma setBreakpoints_script_witness :
  exists ps st1 st2,
    setBreakpoints_send (fun _ => None) "prog.asm" [0%Z; 2%Z] example_state
    = Some (Returned (map (breakpointAddress ["8000"; "8003"; "8006"]) [0%Z; 2%Z], ps, st1))
    /\ written st1
       = [] ++ command_line ["brc"]
            :: map (fun a => command_line
                               ["bron"; match a with Some v => v | None => "" end])
                 (map (breakpointAddress ["8000"; "8003"; "8006"]) [0%Z; 2%Z])
    /\ (forall k, k <= 2 ->
          exists st_k,
            feed_all (firstn k ["> "; "> "; "> "]) st1 = Some st_k
            /\ setBreakpoints_await
                 (map (breakpointAddress ["8000"; "8003"; "8006"]) [0%Z; 2%Z]) ps st_k
               = None)
    /\ feed_all ["> "; "> "; "> "] st1 = Some st2
    /\ setBreakpoints_await
         (map (breakpointAddress ["8000"; "8003"; "8006"]) [0%Z; 2%Z]) ps st2
       = Some (map (lastIndexOf ["8000"; "8003"; "8006"])
                 (map (breakpointAddress ["8000"; "8003"; "8006"]) [0%Z; 2%Z]))
    /\ matchers st2 = []
    /\ written st2 = written st1.
Proof.
  refine (setBreakpoints_script (fun _ => None) "prog.asm" [0%Z; 2%Z] example_state
            ["8000"; "8003"; "8006"] ["> "; "> "; "> "] _ _ _ _ _ _).
  - reflexivity.
  - reflexivity.
  - reflexivity.
  - reflexivity.
  - repeat constructor; vm_compute; discriminate.
  - reflexivity.
Defined.



(** ** The handshake of [initialize] *)

Section HandshakeFacts.

Lemma js_match_Lit_iff (l s : string) :
  js_match s (Lit l) <> None <-> exists pre post, s = (pre ++ l ++ post)%string.
Proof.
  unfold js_match. rewrite <- (search_Lit l s 0).
  destruct (search (Lit l) 0 s) as [[[b e] cs] |]; split; congruence.
Qed.

Lemma js_match_Lit_None (l s : string) :
  (forall pre post, s <> (pre ++ l ++ post)%string) -> js_match s (Lit l) = None.
Proof.
  intros H. destruct (js_match s (Lit l)) eqn:E; [| reflexivity].
  assert (Hm : js_match s (Lit l) <> None) by congruence.
  apply js_match_Lit_iff in Hm. destruct Hm as [pre [post Hm]]. now apply H in Hm.
Qed.

End HandshakeFacts.

(** X16. [initialize] writes r. In a quiet state it waits through every
    chunk that does not hold the text [A =], is still waiting after the
    first chunk that holds it, and completes at the next chunk that holds
    the prompt. *)
Theorem initialize_handshake :
  forall (st : State) (skipped : list string) (a b pre post : string),
    consistent st -> matchers st = [] -> outputBuffer st = [] ->
    Forall (fun c => forall x y, c <> (x ++ "A =" ++ y)%string) skipped ->
    exists ps st1 st2 st3,
      initialize_send st = Some (ps, st1)
      /\ written st1 = written st ++ [command_line ["r"]]
      /\ feed_all (skipped ++ [(a ++ "A =" ++ b)%string]) st1 = Some st2
      /\ prompts_await ps st2 = None
      /\ feed (pre ++ "> " ++ post) st2 = Some st3
      /\ prompts_await ps st3 = Some tt
      /\ matchers st3 = [].
Proof.
  intros st skipped a b pre post Hc Hq Hb Hs.
  unfold initialize_send.
  rewrite (matchResponse_queues _ (sendCommand "r" [] st)) by exact Hb.
  cbn [matchers sendCommand set_written promises]. rewrite Hq. cbn [app length seq singles].
  set (st1 := set_promises _ _).
  assert (Hold : forall q, In q (map fst (settled st)) -> q < promises st)
    by (intros q Hin; now apply (consistent_settled_lt st q Hc)).
  destruct (js_match (a ++ "A =" ++ b) (Lit "A =")) as [m1 |] eqn:E1.
  2:{ exfalso. revert E1. apply js_match_Lit_iff. eauto. }
  destruct (has_prompt pre post) as [m2 E2].
  eexists. exists st1. eexists. eexists.
  split; [reflexivity |]. split; [reflexivity |].
  rewrite (single_block skipped _ m1 st1 (Lit "A =") (promises st)
             [SingleMatcher interactive (S (promises st))]); auto.
  2:{ eapply Forall_impl; [| exact Hs]. intros c H. now apply js_match_Lit_None. }
  split; [reflexivity |]. split.
  { unfold prompts_await.
    rewrite (await_all_waiting _ _ (S (promises st))); [reflexivity | simpl; auto |].
    apply settled_value_None. subst st1.
    cbn [settled set_matchers call_resolve set_settled set_promises sendCommand set_written].
    rewrite map_app. intros Hin. apply in_app_or in Hin. simpl in Hin.
    destruct Hin as [Hin | [Hin | []]]; [apply Hold in Hin |]; lia. }
  rewrite (single_hit _ m2 _ interactive (S (promises st)) []); auto.
  split; [reflexivity |]. split; [| reflexivity].
  unfold prompts_await.
  rewrite (await_all_settled _ [One m1; One m2] (promises st) (settled st)).
  - reflexivity.
  - subst st1.
    cbn [settled set_matchers call_resolve set_settled set_promises sendCommand set_written].
    now rewrite <- app_assoc.
  - exact Hold.
Qed.

Lemma initialize_handshake_witness :
  exists ps st1 st2 st3,
    initialize_send init = Some (ps, st1)
    /\ written st1 = [] ++ [command_line ["r"]]
    /\ feed_all ([("r" ++ CRLF)%string] ++ [("" ++ "A =" ++ "00")%string]) st1 = Some st2
    /\ prompts_await ps st2 = None
    /\ feed ("" ++ "> " ++ "") st2 = Some st3
    /\ prompts_await ps st3 = Some tt
    /\ matchers st3 = [].
Proof.
  refine (initialize_handshake init [("r" ++ CRLF)%string] "" "00" "" "" _ _ _ _).
  - reflexivity.
  - reflexivity.
  - reflexivity.
  - repeat constructor. intros x y H.
    assert (Hm : js_match ("r" ++ CRLF) (Lit "A =") <> None)
      by (apply js_match_Lit_iff; exists x, y; exact H).
    vm_compute in Hm. congruence.
Defined.
